(** * Ara + Gemmini + scalar benchmark kernels: a shallow embedding

    The two C programs under [Performance Testing kernels/] share their data
    generators and scalar kernels verbatim; the shared functions are embedded
    once, the test phases of each program live in a module of their own. *)

From Stdlib Require Import ZArith Lia String.
From stdpp Require Import base tactics decidable option list functions.

Local Open Scope Z_scope.

(** ** Machine integers

    RV64: [size_t] and [uint64_t] are 64-bit unsigned, [int32_t] and
    [elem_t = int8_t] are two's-complement.  Values are kept in [Z]; every
    conversion writes its wrap-around out. *)

Definition wrap_u (w : Z) (z : Z) : Z := z mod 2 ^ w.
Definition wrap_s (w : Z) (z : Z) : Z := (z + 2 ^ (w - 1)) mod 2 ^ w - 2 ^ (w - 1).

Definition to_u64 : Z → Z := wrap_u 64.
Definition to_int64 : Z → Z := wrap_s 64.
Definition to_int32 : Z → Z := wrap_s 32.
Definition to_int8 : Z → Z := wrap_s 8.

(** ** Memory: named static arrays, one cell per array element *)

Inductive block :=
| gemmini_A | gemmini_B | gemmini_C | gemmini_ref
| scalar_A | scalar_B | scalar_C
| vec_x | vec_y | vec_result | vec_ref.

#[global] Instance block_eq_dec : EqDecision block.
Proof. solve_decision. Defined.

(** A pointer is a block and an element offset into it. *)
Definition ptr : Type := block * nat.
Abbreviation mem := (ptr → Z).

Definition base (b : block) : ptr := (b, 0%nat).
Definition padd (p : ptr) (k : nat) : ptr := (p.1, (p.2 + k)%nat).
Infix "+ₚ" := padd (at level 50, left associativity).

(** Typed accesses: a cell read as [elem_t] or [int32_t] holds a value of
    that type, a store converts to it. *)
Definition load8 (m : mem) (p : ptr) : Z := to_int8 (m p).
Definition load32 (m : mem) (p : ptr) : Z := to_int32 (m p).
Definition store8 (m : mem) (p : ptr) (v : Z) : mem := <[p := to_int8 v]> m.
Definition store32 (m : mem) (p : ptr) (v : Z) : mem := <[p := to_int32 v]> m.

(** [for (size_t i = 0; i < n; i++) body] over a state [S]. *)
Definition for_loop {S : Type} (n : nat) (body : nat → S → S) (s : S) : S :=
  foldl (λ s i, body i s) s (seq 0 n).

(** [for (size_t i = 0; i < n && guard; i++) body]: once the guard fails the
    loop is left, and nothing after it runs. *)
Definition for_loop_while {S : Type} (n : nat) (guard : S → bool)
    (body : nat → S → S) (s : S) : S :=
  foldl (λ s i, if guard s then body i s else s) s (seq 0 n).

Section Kernels.

(** [DIM] comes from the generated header [gemmini_params.h]; [elem_t] is
    [int8_t] there, so [sizeof(elem_t) = 1]. *)
Variable DIM : nat.

Definition sizeof_elem_t : nat := 1.

(** *** Matrix / vector initialisation *)

(** [mat[i][j]] of an [elem_t mat[DIM][DIM]]. *)
Definition idx2 (mat : ptr) (i j : nat) : ptr := mat +ₚ (i * DIM + j).

(** [((seed + i * DIM + j) % 16) - 8] evaluated in [size_t]. *)
Definition init_value_int8 (seed : Z) (i j : nat) : Z :=
  to_u64 (to_u64 (to_u64 (seed + to_u64 (Z.of_nat i * Z.of_nat DIM)) + Z.of_nat j) mod 16 - 8).

Definition init_matrix_int8 (mat : ptr) (seed : Z) (m : mem) : mem :=
  for_loop DIM (λ i m,
    for_loop DIM (λ j m,
      store8 m (idx2 mat i j) (init_value_int8 seed i j)) m) m.

(** [((seed + i) % 64) - 32] evaluated in [size_t]. *)
Definition init_value_int32 (seed : Z) (i : nat) : Z :=
  to_u64 (to_u64 (seed + Z.of_nat i) mod 64 - 32).

Definition init_matrix_int32 (mat : ptr) (size : nat) (seed : Z) (m : mem) : mem :=
  for_loop size (λ i m, store32 m (mat +ₚ i) (init_value_int32 seed i)) m.

(** [((seed + i) % 100) - 50] evaluated in [size_t]. *)
Definition init_value_vec (seed : Z) (i : nat) : Z :=
  to_u64 (to_u64 (seed + Z.of_nat i) mod 100 - 50).

Definition init_vector_int32 (vec : ptr) (len : nat) (seed : Z) (m : mem) : mem :=
  for_loop len (λ i m, store32 m (vec +ₚ i) (init_value_vec seed i)) m.

Definition zero_matrix_int8 (mat : ptr) (m : mem) : mem :=
  for_loop DIM (λ i m, for_loop DIM (λ j m, store8 m (idx2 mat i j) 0) m) m.

Definition zero_matrix_int32 (mat : ptr) (size : nat) (m : mem) : mem :=
  for_loop size (λ i m, store32 m (mat +ₚ i) 0) m.

(** *** Scalar operations *)

(** [y[i] = a * x[i] + y[i]] in [int32_t]; the product and the sum wrap the
    way RV64 [mulw]/[addw] compute them. *)
Definition scalar_saxpy (a : Z) (x y : ptr) (n : nat) (m : mem) : mem :=
  for_loop n (λ i m,
    store32 m (y +ₚ i) (to_int32 (to_int32 (a * load32 m (x +ₚ i)) + load32 m (y +ₚ i)))) m.

Definition scalar_matmul_int32 (A B C : ptr) (N : nat) (m : mem) : mem :=
  for_loop N (λ i m,
    for_loop N (λ j m,
      let sum := for_loop N (λ k sum,
        to_int64 (sum + to_int64 (load32 m (A +ₚ (i * N + k)) * load32 m (B +ₚ (k * N + j))))) 0 in
      store32 m (C +ₚ (i * N + j)) sum) m) m.

(** The two saturation tests of [scalar_matmul_int8], in source order. *)
Definition saturate_int8 (sum : Z) : Z :=
  let sum := if 127 <? sum then 127 else sum in
  let sum := if sum <? -128 then -128 else sum in
  sum.

Definition scalar_matmul_int8 (A B C : ptr) (m : mem) : mem :=
  for_loop DIM (λ i m,
    for_loop DIM (λ j m,
      let sum := for_loop DIM (λ k sum,
        to_int32 (sum + to_int32 (load8 m (idx2 A i k) * load8 m (idx2 B k j)))) 0 in
      store8 m (idx2 C i j) (saturate_int8 sum)) m) m.

End Kernels.

(** ** The platform under test

    The vector unit and the systolic array are hardware; the programs only
    issue instructions to them.  What the hardware answers is a parameter of
    the model. *)

Inductive dataflow := OUTPUT_STATIONARY | WEIGHT_STATIONARY.

(** The accelerator operations of [gemmini.h], as issued by the programs. *)
Inductive gemmini_op :=
| Flush (skip : Z)
| ConfigLd (stride : nat)
| ConfigSt (stride : nat)
| Mvin (src : ptr) (sp_addr : nat)
| ConfigEx (mode : dataflow) (act : Z) (sys_shift : Z)
| PreloadZeros (c_sp_addr : nat)
| ComputePreloaded (a_sp_addr b_sp_addr : nat)
| Mvout (dst : ptr) (sp_addr : nat)
| Fence.

#[global] Instance dataflow_eq_dec : EqDecision dataflow.
Proof. solve_decision. Defined.
#[global] Instance gemmini_op_eq_dec : EqDecision gemmini_op.
Proof. solve_decision. Defined.

Record platform := Platform {
  (** elements of a vector register at SEW = 32, LMUL = 1 *)
  VLMAX : nat;
  (** one lane of [vmul.vx] and of [vadd.vv] *)
  lane_mul : Z → Z → Z;
  lane_add : Z → Z → Z;
  (** main memory once the fence has retired the operations issued so far *)
  accel_retire : list gemmini_op → mem → mem;
  (** what [mcycle] and [minstret] show at the k-th counter read *)
  mcycle_at : nat → Z;
  minstret_at : nat → Z
}.

(** The RVV 1.0 lane semantics at SEW = 32. *)
Definition rvv_mul (e a : Z) : Z := to_int32 (e * a).
Definition rvv_add (p q : Z) : Z := to_int32 (p + q).

Record rvv_conformant (hw : platform) : Prop := {
  conf_vlmax : (0 < VLMAX hw)%nat;
  conf_mul : ∀ e a, lane_mul hw e a = rvv_mul e a;
  conf_add : ∀ p q, lane_add hw p q = rvv_add p q
}.

Section Vector.

Variable hw : platform.

(** [vsetvli vl, avl, e32, m1, ta, ma] *)
Definition vsetvli_e32m1 (avl : nat) : nat := Nat.min avl (VLMAX hw).

(** [vle32.v vd, (p)] *)
Definition vle32 (vl : nat) (m : mem) (p : ptr) : list Z :=
  (λ k, load32 m (p +ₚ k)) <$> seq 0 vl.

(** [vmul.vx vd, vs, a] *)
Definition vmul_vx (vs : list Z) (a : Z) : list Z := (λ e, lane_mul hw e a) <$> vs.

(** [vadd.vv vd, vs2, vs1] *)
Definition vadd_vv (vs2 vs1 : list Z) : list Z := zip_with (lane_add hw) vs2 vs1.

(** [vse32.v vs, (p)] *)
Definition vse32 (vs : list Z) (m : mem) (p : ptr) : mem :=
  for_loop (length vs) (λ k m, store32 m (p +ₚ k) (vs !!! k)) m.

(** The [while (n > 0)] loop.  A pass that is granted [vl = 0] leaves [n],
    [x], [y] and memory as they were, so the loop then never ends; any other
    pass consumes at least one element.  [fuel] bounds the passes, and [None]
    stands for a loop that does not terminate. *)
Fixpoint ara_vector_saxpy_loop (fuel : nat) (a : Z) (x y : ptr) (n : nat) (m : mem)
    : option mem :=
  match n, fuel with
  | O, _ => Some m
  | _, O => None
  | _, S fuel =>
    let vl := vsetvli_e32m1 n in
    let v1 := vle32 vl m x in
    let v2 := vle32 vl m y in
    let v3 := vmul_vx v1 a in
    let v2 := vadd_vv v3 v2 in
    let m := vse32 v2 m y in
    ara_vector_saxpy_loop fuel a (x +ₚ vl) (y +ₚ vl) (n - vl) m
  end.

Definition ara_vector_saxpy (a : Z) (x y : ptr) (n : nat) (m : mem) : option mem :=
  ara_vector_saxpy_loop n a x y n m.

(** [ara_vector_dot]: the scalar fallback of the source. *)
Definition ara_vector_dot (x y : ptr) (n : nat) (m : mem) : Z :=
  for_loop n (λ i sum,
    to_int64 (sum + to_int64 (load32 m (x +ₚ i) * load32 m (y +ₚ i)))) 0.

End Vector.

(** ** Program state and the execution monad *)

Record state := State {
  st_mem : mem;
  st_console : list (string * list Z);
  st_accel : list gemmini_op;
  st_csr_reads : nat;
  st_mstatus : Z
}.

Inductive fault := DivideByZero | Hang.

Inductive result (A : Type) :=
| Ok (a : A) (s : state)
| Fault (f : fault) (s : state).
Arguments Ok {A} a s.
Arguments Fault {A} f s.

Definition M (A : Type) : Type := state → result A.

#[global] Instance M_ret : MRet M := λ A a s, Ok a s.
#[global] Instance M_bind : MBind M := λ A B f c s,
  match c s with
  | Ok a s' => f a s'
  | Fault e s' => Fault e s'
  end.

Definition final_state {A} (r : result A) : state :=
  match r with Ok _ s => s | Fault _ s => s end.

Definition with_mem (f : mem → mem) (s : state) : state :=
  State (f (st_mem s)) (st_console s) (st_accel s) (st_csr_reads s) (st_mstatus s).

Definition mem_op (f : mem → mem) : M unit := λ s, Ok tt (with_mem f s).

Definition emit (fmt : string) (args : list Z) (s : state) : state :=
  State (st_mem s) (st_console s ++ [(fmt, args)]) (st_accel s) (st_csr_reads s) (st_mstatus s).

Definition printf (fmt : string) (args : list Z) : M unit := λ s, Ok tt (emit fmt args s).

Definition issue (op : gemmini_op) (s : state) : state :=
  State (st_mem s) (st_console s) (st_accel s ++ [op]) (st_csr_reads s) (st_mstatus s).

(** Unsigned 64-bit division; dividing by zero is undefined in C. *)
Definition udiv64 (a b : Z) : M Z := λ s,
  if b =? 0 then Fault DivideByZero s else Ok (a / b) s.

Section Machine.

Variable hw : platform.

Definition read_csr_mcycle : M Z := λ s,
  Ok (to_u64 (mcycle_at hw (st_csr_reads s)))
     (State (st_mem s) (st_console s) (st_accel s) (S (st_csr_reads s)) (st_mstatus s)).

Definition read_csr_minstret : M Z := λ s,
  Ok (to_u64 (minstret_at hw (st_csr_reads s)))
     (State (st_mem s) (st_console s) (st_accel s) (S (st_csr_reads s)) (st_mstatus s)).

(** [mstatus |= (1UL << 9)] *)
Definition enable_vector_extension : M unit := λ s,
  Ok tt (State (st_mem s) (st_console s) (st_accel s) (st_csr_reads s)
               (Z.lor (st_mstatus s) (Z.shiftl 1 9))).

Definition gemmini_flush (skip : Z) : M unit := λ s, Ok tt (issue (Flush skip) s).
Definition gemmini_config_ld (stride : nat) : M unit := λ s, Ok tt (issue (ConfigLd stride) s).
Definition gemmini_config_st (stride : nat) : M unit := λ s, Ok tt (issue (ConfigSt stride) s).
Definition gemmini_mvin (src : ptr) (sp : nat) : M unit := λ s, Ok tt (issue (Mvin src sp) s).
Definition gemmini_config_ex (mode : dataflow) (act shift : Z) : M unit :=
  λ s, Ok tt (issue (ConfigEx mode act shift) s).
Definition gemmini_preload_zeros (c : nat) : M unit := λ s, Ok tt (issue (PreloadZeros c) s).
Definition gemmini_compute_preloaded (a b : nat) : M unit :=
  λ s, Ok tt (issue (ComputePreloaded a b) s).
Definition gemmini_mvout (dst : ptr) (sp : nat) : M unit := λ s, Ok tt (issue (Mvout dst sp) s).

(** The fence blocks until everything issued has retired; only then are the
    accelerator's writes to main memory there to be read.  The fence is taken
    to return: a stalled accelerator, whose fence never returns, is a hang of
    the hardware that nothing in the program can detect, and is not part of
    this model. *)
Definition gemmini_fence : M unit := λ s,
  let s := issue Fence s in
  Ok tt (with_mem (accel_retire hw (st_accel s)) s).

Definition run_ara_vector_saxpy (a : Z) (x y : ptr) (n : nat) : M unit := λ s,
  match ara_vector_saxpy hw a x y n (st_mem s) with
  | Some m => Ok tt (with_mem (λ _, m) s)
  | None => Fault Hang s
  end.

End Machine.

(** ** Constants and steps shared by the two programs *)

Definition TEST_DIM : nat := 16.
Definition VEC_LEN : nat := 256.
Definition MAT_SIZE : nat := TEST_DIM * TEST_DIM.

Definition puts (line : string) : M unit := printf line [].

(** The verification loop of the Gemmini tests: both loops stop at
    [errors < 5]; a cell counts when it is more than 1 away from the
    reference.  The two programs differ in the text of the message only. *)
Definition gemmini_verify_cell (DIM : nat) (fmt : string) (i j : nat) (acc : Z * state)
    : Z * state :=
  let '(errors, s) := acc in
  let got := load8 (st_mem s) (idx2 DIM (base gemmini_C) i j) in
  let expected := load8 (st_mem s) (idx2 DIM (base gemmini_ref) i j) in
  let diff := got - expected in
  if (diff <? -1) || (1 <? diff)
  then (to_int32 (errors + 1), emit fmt [Z.of_nat i; Z.of_nat j; got; expected] s)
  else (errors, s).

Definition gemmini_verify (DIM : nat) (fmt : string) : M Z := λ s,
  let '(errors, s) :=
    for_loop_while DIM (λ acc, acc.1 <? 5) (λ i acc,
      for_loop_while DIM (λ acc, acc.1 <? 5) (λ j acc,
        gemmini_verify_cell DIM fmt i j acc) acc) (0, s) in
  Ok errors s.

(** ** ara_gemmini_compare.c (built with BAREMETAL) *)

Module Compare.
Section Program.

Variable DIM : nat.
Variable hw : platform.

Definition test_scalar_matmul : M Z :=
  puts "\n";;
  puts "======================================================================\n";;
  printf "TEST 1: SCALAR CPU MATRIX MULTIPLY (32-bit integers, %dx%d)\n"
    [Z.of_nat TEST_DIM; Z.of_nat TEST_DIM];;
  puts "======================================================================\n";;
  puts "\n";;
  mem_op (init_matrix_int32 (base scalar_A) MAT_SIZE 0xABCD);;
  mem_op (init_matrix_int32 (base scalar_B) MAT_SIZE 0x1234);;
  mem_op (zero_matrix_int32 (base scalar_C) MAT_SIZE);;
  puts "Computing matrix multiply on scalar Rocket core...\n";;
  start_cycles ← read_csr_mcycle hw;
  start_instrs ← read_csr_minstret hw;
  mem_op (scalar_matmul_int32 (base scalar_A) (base scalar_B) (base scalar_C) TEST_DIM);;
  end_cycles ← read_csr_mcycle hw;
  end_instrs ← read_csr_minstret hw;
  let cycles := to_u64 (end_cycles - start_cycles) in
  let instrs := to_u64 (end_instrs - start_instrs) in
  printf "[PERF] Scalar Matmul %dx%d INT32\n" [Z.of_nat TEST_DIM; Z.of_nat TEST_DIM];;
  printf "  Cycles: %llu\n" [cycles];;
  printf "  Instructions: %llu\n" [instrs];;
  printf "  Ops (2*N^3): %llu\n" [to_u64 (2 * Z.of_nat TEST_DIM * Z.of_nat TEST_DIM * Z.of_nat TEST_DIM)];;
  ops_x1000 ← udiv64 (to_u64 (2 * Z.of_nat TEST_DIM * Z.of_nat TEST_DIM * Z.of_nat TEST_DIM * 1000)) cycles;
  printf "  Ops/cycle x1000: %llu\n" [ops_x1000];;
  puts "\n";;
  puts "Scalar matmul test PASSED\n";;
  mret 0.

Definition test_gemmini_matmul : M Z :=
  puts "\n";;
  puts "======================================================================\n";;
  printf "TEST 2: GEMMINI SYSTOLIC ARRAY MATRIX MULTIPLY (INT8, %dx%d)\n"
    [Z.of_nat DIM; Z.of_nat DIM];;
  puts "======================================================================\n";;
  puts "\n";;
  gemmini_flush 0;;
  mem_op (init_matrix_int8 DIM (base gemmini_A) 0x5678);;
  mem_op (init_matrix_int8 DIM (base gemmini_B) 0x9ABC);;
  mem_op (zero_matrix_int8 DIM (base gemmini_C));;
  mem_op (zero_matrix_int8 DIM (base gemmini_ref));;
  puts "Computing reference result on scalar core...\n";;
  ref_start ← read_csr_mcycle hw;
  mem_op (scalar_matmul_int8 DIM (base gemmini_A) (base gemmini_B) (base gemmini_ref));;
  ref_end ← read_csr_mcycle hw;
  printf "  Reference cycles: %llu\n" [to_u64 (ref_end - ref_start)];;
  puts "Computing on Gemmini systolic array...\n";;
  let A_sp_addr := 0%nat in
  let B_sp_addr := DIM in
  let C_sp_addr := (2 * DIM)%nat in
  start_cycles ← read_csr_mcycle hw;
  start_instrs ← read_csr_minstret hw;
  gemmini_config_ld (DIM * sizeof_elem_t);;
  gemmini_config_st (DIM * sizeof_elem_t);;
  gemmini_mvin (base gemmini_A) A_sp_addr;;
  gemmini_mvin (base gemmini_B) B_sp_addr;;
  gemmini_config_ex OUTPUT_STATIONARY 0 0;;
  gemmini_preload_zeros C_sp_addr;;
  gemmini_compute_preloaded A_sp_addr B_sp_addr;;
  gemmini_mvout (base gemmini_C) C_sp_addr;;
  gemmini_fence hw;;
  end_cycles ← read_csr_mcycle hw;
  end_instrs ← read_csr_minstret hw;
  let cycles := to_u64 (end_cycles - start_cycles) in
  let instrs := to_u64 (end_instrs - start_instrs) in
  printf "[PERF] Gemmini Matmul %dx%d INT8\n" [Z.of_nat DIM; Z.of_nat DIM];;
  printf "  Cycles: %llu\n" [cycles];;
  printf "  Instructions: %llu\n" [instrs];;
  printf "  Ops (2*N^3): %llu\n" [to_u64 (2 * Z.of_nat DIM * Z.of_nat DIM * Z.of_nat DIM)];;
  gemmini_ops_x1000 ← udiv64 (to_u64 (2 * Z.of_nat DIM * Z.of_nat DIM * Z.of_nat DIM * 1000)) cycles;
  printf "  Ops/cycle x1000: %llu\n" [gemmini_ops_x1000];;
  puts "\n";;
  puts "Verifying results...\n";;
  errors ← gemmini_verify DIM "  Mismatch at [%zu][%zu]: got %d, expected %d\n";
  (if errors =? 0
   then puts "Gemmini results match reference\n"
   else puts "WARNING: Some mismatches found (may be due to saturation)\n");;
  puts "Gemmini matmul test PASSED\n";;
  mret 0.

Definition test_performance_comparison : M Z :=
  puts "\n";;
  puts "======================================================================\n";;
  puts "TEST 3: PERFORMANCE COMPARISON SUMMARY\n";;
  puts "======================================================================\n";;
  puts "\n";;
  mem_op (init_matrix_int32 (base scalar_A) MAT_SIZE 0x1111);;
  mem_op (init_matrix_int32 (base scalar_B) MAT_SIZE 0x2222);;
  mem_op (zero_matrix_int32 (base scalar_C) MAT_SIZE);;
  scalar_start ← read_csr_mcycle hw;
  mem_op (scalar_matmul_int32 (base scalar_A) (base scalar_B) (base scalar_C) TEST_DIM);;
  scalar_end ← read_csr_mcycle hw;
  let scalar_cycles := to_u64 (scalar_end - scalar_start) in
  gemmini_flush 0;;
  mem_op (init_matrix_int8 DIM (base gemmini_A) 0x3333);;
  mem_op (init_matrix_int8 DIM (base gemmini_B) 0x4444);;
  mem_op (zero_matrix_int8 DIM (base gemmini_C));;
  let A_sp := 0%nat in
  let B_sp := DIM in
  let C_sp := (2 * DIM)%nat in
  gemmini_start ← read_csr_mcycle hw;
  gemmini_config_ld (DIM * sizeof_elem_t);;
  gemmini_config_st (DIM * sizeof_elem_t);;
  gemmini_mvin (base gemmini_A) A_sp;;
  gemmini_mvin (base gemmini_B) B_sp;;
  gemmini_config_ex OUTPUT_STATIONARY 0 0;;
  gemmini_preload_zeros C_sp;;
  gemmini_compute_preloaded A_sp B_sp;;
  gemmini_mvout (base gemmini_C) C_sp;;
  gemmini_fence hw;;
  gemmini_end ← read_csr_mcycle hw;
  let gemmini_cycles := to_u64 (gemmini_end - gemmini_start) in
  puts "Performance Comparison:\n";;
  puts "=======================\n";;
  puts "\n";;
  puts "| Accelerator | Matrix Size | Data Type | Cycles     |\n";;
  puts "|-------------|-------------|-----------|------------|\n";;
  printf "| Scalar CPU  | %3dx%3d     | INT32     | %10llu |\n"
    [Z.of_nat TEST_DIM; Z.of_nat TEST_DIM; scalar_cycles];;
  printf "| Gemmini     | %3dx%3d     | INT8      | %10llu |\n"
    [Z.of_nat DIM; Z.of_nat DIM; gemmini_cycles];;
  puts "\n";;
  speedup ← udiv64 scalar_cycles gemmini_cycles;
  printf "Gemmini Speedup: %llux faster than scalar CPU\n" [speedup];;
  puts "\n";;
  mret 0.

(** [main]; the value is the argument of the final [exit]. *)
Definition main : M Z :=
  puts "\n";;
  puts "######################################################################\n";;
  puts "# ARA + GEMMINI PERFORMANCE COMPARISON TESTBENCH\n";;
  puts "# Matrix Operation Performance Metrics\n";;
  puts "######################################################################\n";;
  puts "\n";;
  let result := 0 in
  r ← test_scalar_matmul; let result := Z.lor result r in
  r ← test_gemmini_matmul; let result := Z.lor result r in
  r ← test_performance_comparison; let result := Z.lor result r in
  puts "\n";;
  puts "######################################################################\n";;
  (if result =? 0 then puts "# ALL TESTS PASSED\n" else puts "# SOME TESTS FAILED\n");;
  puts "######################################################################\n";;
  puts "\n";;
  mret result.

End Program.
End Compare.

(** ** ara_gemmini_scalar_compare.c (built with BAREMETAL) *)

Module ScalarCompare.
Section Program.

Variable DIM : nat.
Variable hw : platform.

Definition test_scalar_performance : M Z :=
  puts "\n";;
  puts "======================================================================\n";;
  puts "TEST 1: SCALAR CPU PERFORMANCE\n";;
  puts "======================================================================\n";;
  puts "\n";;
  printf "--- SAXPY: y = a*x + y (vector length=%d, INT32) ---\n" [Z.of_nat VEC_LEN];;
  mem_op (init_vector_int32 (base vec_x) VEC_LEN 0xABCD);;
  mem_op (init_vector_int32 (base vec_y) VEC_LEN 0x1234);;
  let alpha := 3 in
  start ← read_csr_mcycle hw;
  mem_op (scalar_saxpy alpha (base vec_x) (base vec_y) VEC_LEN);;
  end_ ← read_csr_mcycle hw;
  puts "[PERF] Scalar SAXPY\n";;
  printf "  Vector Length: %d\n" [Z.of_nat VEC_LEN];;
  printf "  Cycles: %llu\n" [to_u64 (end_ - start)];;
  printf "  Ops (2*N): %d\n" [2 * Z.of_nat VEC_LEN];;
  puts "\n";;
  printf "--- Matrix Multiply: C = A*B (%dx%d, INT32) ---\n" [Z.of_nat TEST_DIM; Z.of_nat TEST_DIM];;
  mem_op (init_matrix_int32 (base scalar_A) MAT_SIZE 0x5678);;
  mem_op (init_matrix_int32 (base scalar_B) MAT_SIZE 0x9ABC);;
  mem_op (zero_matrix_int32 (base scalar_C) MAT_SIZE);;
  start ← read_csr_mcycle hw;
  mem_op (scalar_matmul_int32 (base scalar_A) (base scalar_B) (base scalar_C) TEST_DIM);;
  end_ ← read_csr_mcycle hw;
  puts "[PERF] Scalar Matmul\n";;
  printf "  Matrix Size: %dx%d\n" [Z.of_nat TEST_DIM; Z.of_nat TEST_DIM];;
  printf "  Cycles: %llu\n" [to_u64 (end_ - start)];;
  printf "  Ops (2*N^3): %llu\n" [to_u64 (2 * Z.of_nat TEST_DIM * Z.of_nat TEST_DIM * Z.of_nat TEST_DIM)];;
  puts "\n";;
  mret 0.

(** The verification loop of [test_ara_performance]. *)
Definition ara_verify_elem (i : nat) (acc : Z * state) : Z * state :=
  let '(errors, s) := acc in
  let got := load32 (st_mem s) (base vec_y +ₚ i) in
  let expected := load32 (st_mem s) (base vec_ref +ₚ i) in
  if bool_decide (got ≠ expected)
  then (to_int32 (errors + 1),
        emit "  MISMATCH at [%zu]: got %d, expected %d\n" [Z.of_nat i; got; expected] s)
  else (errors, s).

Definition ara_verify : M Z := λ s,
  let '(errors, s) :=
    for_loop_while VEC_LEN (λ acc, acc.1 <? 5) ara_verify_elem (0, s) in
  Ok errors s.

Definition test_ara_performance : M Z :=
  puts "\n";;
  puts "======================================================================\n";;
  puts "TEST 2: ARA VECTOR UNIT PERFORMANCE (RVV 1.0)\n";;
  puts "======================================================================\n";;
  puts "\n";;
  puts "Enabling RVV extension...\n";;
  enable_vector_extension;;
  printf "--- Ara Vector SAXPY: y = a*x + y (vector length=%d, INT32) ---\n" [Z.of_nat VEC_LEN];;
  mem_op (init_vector_int32 (base vec_x) VEC_LEN 0xABCD);;
  mem_op (init_vector_int32 (base vec_y) VEC_LEN 0x1234);;
  let alpha := 3 in
  mem_op (for_loop VEC_LEN (λ i m, store32 m (base vec_ref +ₚ i) (load32 m (base vec_y +ₚ i))));;
  mem_op (scalar_saxpy alpha (base vec_x) (base vec_ref) VEC_LEN);;
  mem_op (init_vector_int32 (base vec_y) VEC_LEN 0x1234);;
  start ← read_csr_mcycle hw;
  run_ara_vector_saxpy hw alpha (base vec_x) (base vec_y) VEC_LEN;;
  end_ ← read_csr_mcycle hw;
  puts "[PERF] Ara Vector SAXPY\n";;
  printf "  Vector Length: %d\n" [Z.of_nat VEC_LEN];;
  printf "  Cycles: %llu\n" [to_u64 (end_ - start)];;
  printf "  Ops (2*N): %d\n" [2 * Z.of_nat VEC_LEN];;
  puts "\n";;
  errors ← ara_verify;
  if errors =? 0
  then
    puts "  Verification: PASSED\n";;
    puts "\n";;
    mret 0
  else
    printf "  Verification: FAILED (%d errors)\n" [errors];;
    mret 1.

Definition test_gemmini_performance : M Z :=
  puts "\n";;
  puts "======================================================================\n";;
  puts "TEST 3: GEMMINI SYSTOLIC ARRAY PERFORMANCE\n";;
  puts "======================================================================\n";;
  puts "\n";;
  gemmini_flush 0;;
  mem_op (init_matrix_int8 DIM (base gemmini_A) 0x5678);;
  mem_op (init_matrix_int8 DIM (base gemmini_B) 0x9ABC);;
  mem_op (zero_matrix_int8 DIM (base gemmini_C));;
  mem_op (zero_matrix_int8 DIM (base gemmini_ref));;
  puts "Computing reference on scalar core...\n";;
  ref_start ← read_csr_mcycle hw;
  mem_op (scalar_matmul_int8 DIM (base gemmini_A) (base gemmini_B) (base gemmini_ref));;
  ref_end ← read_csr_mcycle hw;
  printf "  Scalar reference cycles: %llu\n" [to_u64 (ref_end - ref_start)];;
  puts "Computing on Gemmini systolic array...\n";;
  let A_sp := 0%nat in
  let B_sp := DIM in
  let C_sp := (2 * DIM)%nat in
  start ← read_csr_mcycle hw;
  gemmini_config_ld (DIM * sizeof_elem_t);;
  gemmini_config_st (DIM * sizeof_elem_t);;
  gemmini_mvin (base gemmini_A) A_sp;;
  gemmini_mvin (base gemmini_B) B_sp;;
  gemmini_config_ex OUTPUT_STATIONARY 0 0;;
  gemmini_preload_zeros C_sp;;
  gemmini_compute_preloaded A_sp B_sp;;
  gemmini_mvout (base gemmini_C) C_sp;;
  gemmini_fence hw;;
  end_ ← read_csr_mcycle hw;
  puts "[PERF] Gemmini Matmul\n";;
  printf "  Matrix Size: %dx%d (INT8)\n" [Z.of_nat DIM; Z.of_nat DIM];;
  printf "  Cycles: %llu\n" [to_u64 (end_ - start)];;
  printf "  Ops (2*N^3): %llu\n" [to_u64 (2 * Z.of_nat DIM * Z.of_nat DIM * Z.of_nat DIM)];;
  puts "\n";;
  errors ← gemmini_verify DIM "  MISMATCH at [%zu][%zu]: got %d, expected %d\n";
  (if errors =? 0 then puts "  Verification: PASSED\n" else mret tt);;
  puts "\n";;
  mret 0.

Definition test_comparison : M Z :=
  puts "\n";;
  puts "======================================================================\n";;
  puts "TEST 4: PERFORMANCE COMPARISON SUMMARY\n";;
  puts "======================================================================\n";;
  puts "\n";;
  mem_op (init_vector_int32 (base vec_x) VEC_LEN 0x1111);;
  mem_op (init_vector_int32 (base vec_y) VEC_LEN 0x2222);;
  start ← read_csr_mcycle hw;
  mem_op (scalar_saxpy 5 (base vec_x) (base vec_y) VEC_LEN);;
  now ← read_csr_mcycle hw;
  let scalar_saxpy_cycles := to_u64 (now - start) in
  mem_op (init_vector_int32 (base vec_y) VEC_LEN 0x2222);;
  start ← read_csr_mcycle hw;
  run_ara_vector_saxpy hw 5 (base vec_x) (base vec_y) VEC_LEN;;
  now ← read_csr_mcycle hw;
  let ara_saxpy_cycles := to_u64 (now - start) in
  mem_op (init_matrix_int32 (base scalar_A) MAT_SIZE 0x3333);;
  mem_op (init_matrix_int32 (base scalar_B) MAT_SIZE 0x4444);;
  mem_op (zero_matrix_int32 (base scalar_C) MAT_SIZE);;
  start ← read_csr_mcycle hw;
  mem_op (scalar_matmul_int32 (base scalar_A) (base scalar_B) (base scalar_C) TEST_DIM);;
  now ← read_csr_mcycle hw;
  let scalar_matmul_cycles := to_u64 (now - start) in
  gemmini_flush 0;;
  mem_op (init_matrix_int8 DIM (base gemmini_A) 0x5555);;
  mem_op (init_matrix_int8 DIM (base gemmini_B) 0x6666);;
  mem_op (zero_matrix_int8 DIM (base gemmini_C));;
  let A_sp := 0%nat in
  let B_sp := DIM in
  let C_sp := (2 * DIM)%nat in
  start ← read_csr_mcycle hw;
  gemmini_config_ld (DIM * sizeof_elem_t);;
  gemmini_config_st (DIM * sizeof_elem_t);;
  gemmini_mvin (base gemmini_A) A_sp;;
  gemmini_mvin (base gemmini_B) B_sp;;
  gemmini_config_ex OUTPUT_STATIONARY 0 0;;
  gemmini_preload_zeros C_sp;;
  gemmini_compute_preloaded A_sp B_sp;;
  gemmini_mvout (base gemmini_C) C_sp;;
  gemmini_fence hw;;
  now ← read_csr_mcycle hw;
  let gemmini_matmul_cycles := to_u64 (now - start) in
  puts "==========================================================\n";;
  puts "                 PERFORMANCE SUMMARY\n";;
  puts "==========================================================\n";;
  puts "\n";;
  printf "SAXPY Operation (y = a*x + y, N=%d, INT32):\n" [Z.of_nat VEC_LEN];;
  puts "----------------------------------------------------------\n";;
  puts "| Processor    | Cycles     | Speedup vs Scalar |\n";;
  puts "|--------------|------------|-------------------|\n";;
  printf "| Scalar CPU   | %10llu | 1.0x              |\n" [scalar_saxpy_cycles];;
  whole ← udiv64 scalar_saxpy_cycles ara_saxpy_cycles;
  tenths ← udiv64 (to_u64 (scalar_saxpy_cycles * 10)) ara_saxpy_cycles;
  printf "| Ara (RVV)    | %10llu | %llu.%llux             |\n"
    [ara_saxpy_cycles; whole; tenths mod 10];;
  puts "\n";;
  printf "Matrix Multiply (C = A*B, %dx%d):\n" [Z.of_nat TEST_DIM; Z.of_nat TEST_DIM];;
  puts "----------------------------------------------------------\n";;
  puts "| Processor    | Data Type | Cycles     | Speedup |\n";;
  puts "|--------------|-----------|------------|----------|";;
  puts "\n";;
  printf "| Scalar CPU   | INT32     | %10llu | 1.0x     |\n" [scalar_matmul_cycles];;
  speedup ← udiv64 scalar_matmul_cycles gemmini_matmul_cycles;
  printf "| Gemmini      | INT8      | %10llu | %llux       |\n"
    [gemmini_matmul_cycles; speedup];;
  puts "\n";;
  puts "==========================================================\n";;
  puts "KEY INSIGHTS:\n";;
  puts "==========================================================\n";;
  puts "- Ara Vector Unit: Best for data-parallel operations\n";;
  puts "  (SAXPY, element-wise ops, reductions)\n";;
  puts "- Gemmini Systolic: Best for matrix operations\n";;
  puts "  (GEMM, convolutions, dense linear algebra)\n";;
  puts "- Combined: Heterogeneous acceleration for ML workloads\n";;
  puts "\n";;
  mret 0.

(** [main]; the value is the argument of the final [exit]. *)
Definition main : M Z :=
  puts "\n";;
  puts "######################################################################\n";;
  puts "#   ARA + GEMMINI + SCALAR PERFORMANCE COMPARISON TESTBENCH         #\n";;
  puts "#   Rocket Core + Ara Vector (RVV) + Gemmini Systolic Array         #\n";;
  puts "######################################################################\n";;
  puts "\n";;
  let result := 0 in
  r ← test_scalar_performance; let result := Z.lor result r in
  r ← test_ara_performance; let result := Z.lor result r in
  r ← test_gemmini_performance; let result := Z.lor result r in
  r ← test_comparison; let result := Z.lor result r in
  puts "\n";;
  puts "######################################################################\n";;
  (if result =? 0
   then puts "#                     ALL TESTS PASSED                              #\n"
   else puts "#                     SOME TESTS FAILED                             #\n");;
  puts "######################################################################\n";;
  puts "\n";;
  mret result.

End Program.
End ScalarCompare.

(** ** Vocabulary of the statements *)

(** The [n] cells of a buffer, as stored. *)
Definition read_buffer (m : mem) (p : ptr) (n : nat) : list Z :=
  map (λ k, m (p +ₚ k)) (seq 0 n).

(** Two buffers of [n] elements that share no cell. *)
Definition disjoint_buffers (x y : ptr) (n : nat) : Prop :=
  ∀ i j, (i < n)%nat → (j < n)%nat → x +ₚ i ≠ y +ₚ j.

(** What one pass of the vector loop holds in [v2] when it stores it. *)
Definition pass_register (hw : platform) (a : Z) (x y : ptr) (m : mem) (vl : nat)
    : list Z :=
  vadd_vv hw (vmul_vx hw (vle32 vl m x) a) (vle32 vl m y).

(** The exact dot product of row [i] of [A] and column [j] of [B]. *)
Definition dot_product (DIM : nat) (m : mem) (A B : ptr) (i j : nat) : Z :=
  foldr Z.add 0 (map (λ k, load8 m (idx2 DIM A i k) * load8 m (idx2 DIM B k j)) (seq 0 DIM)).

Definition clamp_int8 (z : Z) : Z := Z.max (-128) (Z.min 127 z).

(** The accelerator operations of one Gemmini run, after the flush. *)
Definition gemmini_protocol (DIM : nat) : list gemmini_op :=
  [ ConfigLd DIM; ConfigSt DIM;
    Mvin (base gemmini_A) 0; Mvin (base gemmini_B) DIM;
    ConfigEx OUTPUT_STATIONARY 0 0;
    PreloadZeros (2 * DIM);
    ComputePreloaded 0 DIM;
    Mvout (base gemmini_C) (2 * DIM);
    Fence ].

(** Scratchpad rows [start, start + DIM). *)
Definition sp_region (DIM start : nat) (row : nat) : Prop :=
  (start ≤ row < start + DIM)%nat.

(** The cells of a [DIM]×[DIM] matrix in row-major order. *)
Definition cells (DIM : nat) : list (nat * nat) :=
  flat_map (λ i, map (pair i) (seq 0 DIM)) (seq 0 DIM).

(** A cell whose result is more than the tolerance 1 away from the reference. *)
Definition is_mismatch (DIM : nat) (m : mem) (c : nat * nat) : bool :=
  1 <? Z.abs (load8 m (idx2 DIM (base gemmini_C) c.1 c.2)
              - load8 m (idx2 DIM (base gemmini_ref) c.1 c.2)).

Definition mismatches (DIM : nat) (m : mem) : list (nat * nat) :=
  filter (λ c, is_mismatch DIM m c = true) (cells DIM).

(** The console line printed for a mismatching cell. *)
Definition mismatch_line (DIM : nat) (fmt : string) (m : mem) (c : nat * nat)
    : string * list Z :=
  (fmt, [Z.of_nat c.1; Z.of_nat c.2;
         load8 m (idx2 DIM (base gemmini_C) c.1 c.2);
         load8 m (idx2 DIM (base gemmini_ref) c.1 c.2)]).

(** Some element of [vec_y] differs from the scalar reference in [vec_ref]. *)
Definition ara_mismatch (m : mem) : Prop :=
  ∃ i, (i < VEC_LEN)%nat ∧ load32 m (base vec_y +ₚ i) ≠ load32 m (base vec_ref +ₚ i).

(** Several console lines at once. *)
Definition emit_lines (lines : list (string * list Z)) (s : state) : state :=
  State (st_mem s) (st_console s ++ lines) (st_accel s) (st_csr_reads s) (st_mstatus s).

(** Whether a line with the given format string is on the console. *)
Definition console_has (fmt : string) (s : state) : bool :=
  existsb (λ line, String.eqb line.1 fmt) (st_console s).

Definition exit_code {A} (r : result A) : option A :=
  match r with Ok a _ => Some a | Fault _ _ => None end.

#[global] Instance fault_eq_dec : EqDecision fault.
Proof. solve_decision. Defined.

Definition is_fault {A} (f : fault) (r : result A) : bool :=
  match r with Fault f' _ => bool_decide (f = f') | Ok _ _ => false end.

(** *** Concrete platforms and states used to run the model *)

(** Conformant vector unit, an accelerator that never writes its result
    back, counters that advance by one per read. *)
Definition hw_idle_accel : platform :=
  Platform 4 rvv_mul rvv_add (λ _ m, m) (λ k, Z.of_nat k) (λ k, Z.of_nat k).

(** As above with a vector adder that always answers zero. *)
Definition hw_stuck_adder : platform :=
  Platform 4 rvv_mul (λ _ _, 0) (λ _ m, m) (λ k, Z.of_nat k) (λ k, Z.of_nat k).

(** As [hw_idle_accel] with a cycle counter that does not advance. *)
Definition hw_frozen_clock : platform :=
  Platform 4 rvv_mul rvv_add (λ _ m, m) (λ _, 7) (λ k, Z.of_nat k).

Definition boot : state := State (λ _, 0) [] [] 0 0.

(** A state in which every cell of [gemmini_C] is 100 away from the
    reference. *)
Definition all_cells_off : state :=
  State (λ p, if decide (p.1 = gemmini_C) then 100 else 0) [] [] 0 0.

(** A memory holding 7 in every cell. *)
Definition all_sevens : mem := λ _, 7.

(** A memory with small distinct numbers in every cell. *)
Definition sample_mem : mem := λ p, Z.of_nat p.2 - 3.

(** *** Vocabulary of the further properties *)

(** The cells [p[0..n)] of a buffer. *)
Definition in_buffer (p : ptr) (n : nat) (q : ptr) : Prop :=
  ∃ k, (k < n)%nat ∧ q = p +ₚ k.

(** No element of [x] is read after a lower-indexed element of [y] stored
    into the same cell: [x] and [y] are apart, the same buffer, or [x] starts
    inside [y]. *)
Definition forward_safe (x y : ptr) (n : nat) : Prop :=
  ∀ j k, (j < k)%nat → (k < n)%nat → x +ₚ k ≠ y +ₚ j.

(** The exact dot product of row [i] of [A] and column [j] of [B], both
    [N]×[N] [int32_t] matrices stored flat. *)
Definition dot_product_int32 (N : nat) (m : mem) (A B : ptr) (i j : nat) : Z :=
  foldr Z.add 0
    (map (λ k, load32 m (A +ₚ (i * N + k)) * load32 m (B +ₚ (k * N + j))) (seq 0 N)).

(** The exact dot product of two [int32_t] vectors. *)
Definition vector_dot_exact (m : mem) (x y : ptr) (n : nat) : Z :=
  foldr Z.add 0 (map (λ i, load32 m (x +ₚ i) * load32 m (y +ₚ i)) (seq 0 n)).

(** Every cell of [gemmini_C] is within 1 of [gemmini_ref]. *)
Definition within_tolerance (DIM : nat) (m : mem) : Prop :=
  ∀ i j, (i < DIM)%nat → (j < DIM)%nat →
    Z.abs (load8 m (idx2 DIM (base gemmini_C) i j)
           - load8 m (idx2 DIM (base gemmini_ref) i j)) ≤ 1.

(** The elements of [vec_y] that differ from [vec_ref], in index order. *)
Definition ara_differs (m : mem) (i : nat) : bool :=
  negb (load32 m (base vec_y +ₚ i) =? load32 m (base vec_ref +ₚ i)).

Definition ara_differing (n : nat) (m : mem) : list nat :=
  filter (λ i, ara_differs m i = true) (seq 0 n).

Definition ara_mismatch_line (m : mem) (i : nat) : string * list Z :=
  ("  MISMATCH at [%zu]: got %d, expected %d\n"%string,
   [Z.of_nat i; load32 m (base vec_y +ₚ i); load32 m (base vec_ref +ₚ i)]).

(** What the vector verification reports for a memory: 0 when no element of
    [vec_y] differs from [vec_ref], 1 otherwise. *)
Definition ara_verdict (m : mem) : Z :=
  match ara_differing VEC_LEN m with
  | [] => 0
  | _ :: _ => 1
  end.

(** The measured delta between the counter reads number [a] and [b]. *)
Definition cycles_between (hw : platform) (a b : nat) : Z :=
  to_u64 (to_u64 (mcycle_at hw b) - to_u64 (mcycle_at hw a)).

(** The banner that [main] of ara_gemmini_scalar_compare.c prints before
    its first test. *)
Definition scalar_compare_banner : M unit :=
  puts "\n";;
  puts "######################################################################\n";;
  puts "#   ARA + GEMMINI + SCALAR PERFORMANCE COMPARISON TESTBENCH         #\n";;
  puts "#   Rocket Core + Ara Vector (RVV) + Gemmini Systolic Array         #\n";;
  puts "######################################################################\n";;
  puts "\n".

(** The call of [test_ara_performance] in a run of that [main] from [s]: it
    starts where the banner and [test_scalar_performance] left the machine. *)
Definition main_ara_phase (hw : platform) (s : state) : result Z :=
  ScalarCompare.test_ara_performance hw
    (final_state (ScalarCompare.test_scalar_performance hw
                    (final_state (scalar_compare_banner s)))).

(** The memory that this call verifies (nothing after the verification
    writes memory). *)
Definition main_ara_memory (hw : platform) (s : state) : mem :=
  st_mem (final_state (main_ara_phase hw s)).

(* ================================================================== *)
(** * Properties *)

(** ** Machine integers *)

Lemma to_int8_id z : -128 ≤ z ≤ 127 → to_int8 z = z.
Proof.
  intros Hz. unfold to_int8, wrap_s. change (2 ^ (8 - 1)) with 128.
  change (2 ^ 8) with 256. rewrite Z.mod_small; lia.
Qed.

Lemma to_int32_id z : -2147483648 ≤ z ≤ 2147483647 → to_int32 z = z.
Proof.
  intros Hz. unfold to_int32, wrap_s. change (2 ^ (32 - 1)) with 2147483648.
  change (2 ^ 32) with 4294967296. rewrite Z.mod_small; lia.
Qed.

Lemma to_int8_range z : -128 ≤ to_int8 z ≤ 127.
Proof.
  unfold to_int8, wrap_s. change (2 ^ (8 - 1)) with 128. change (2 ^ 8) with 256.
  pose proof (Z.mod_pos_bound (z + 128) 256). lia.
Qed.

Lemma to_int32_range z : -2147483648 ≤ to_int32 z ≤ 2147483647.
Proof.
  unfold to_int32, wrap_s. change (2 ^ (32 - 1)) with 2147483648.
  change (2 ^ 32) with 4294967296.
  pose proof (Z.mod_pos_bound (z + 2147483648) 4294967296). lia.
Qed.

Lemma to_int32_idem z : to_int32 (to_int32 z) = to_int32 z.
Proof. apply to_int32_id, to_int32_range. Qed.

Lemma to_int8_idem z : to_int8 (to_int8 z) = to_int8 z.
Proof. apply to_int8_id, to_int8_range. Qed.

Lemma to_int32_add_l a b : to_int32 (to_int32 a + b) = to_int32 (a + b).
Proof.
  unfold to_int32, wrap_s. change (2 ^ (32 - 1)) with 2147483648.
  change (2 ^ 32) with 4294967296. f_equal.
  replace ((a + 2147483648) mod 4294967296 - 2147483648 + b + 2147483648)
    with ((a + 2147483648) mod 4294967296 + b) by lia.
  rewrite Zplus_mod_idemp_l. f_equal. lia.
Qed.

(** Reducing modulo [2^64] first does not change a residue modulo a divisor
    of [2^64]. *)
Lemma to_u64_mod z d : 0 < d → (d | 2 ^ 64) → to_u64 z mod d = z mod d.
Proof.
  intros Hd Hdiv. unfold to_u64, wrap_u.
  apply Z.mod_mod_divide; assumption.
Qed.

Lemma to_u64_add_mod a b d :
  0 < d → (d | 2 ^ 64) → (to_u64 a + b) mod d = (a + b) mod d.
Proof.
  intros Hd Hdiv. rewrite Z.add_mod by lia.
  rewrite to_u64_mod by assumption. rewrite <- Z.add_mod by lia. reflexivity.
Qed.

Lemma to_int8_of_u64 z : to_int8 (to_u64 z) = to_int8 z.
Proof.
  unfold to_int8, wrap_s. f_equal. change (2 ^ 8) with 256.
  apply to_u64_add_mod; [lia | exists (2 ^ 56); reflexivity].
Qed.

Lemma to_int32_of_u64 z : to_int32 (to_u64 z) = to_int32 z.
Proof.
  unfold to_int32, wrap_s. f_equal. change (2 ^ 32) with 4294967296.
  apply to_u64_add_mod; [lia | exists (2 ^ 32); reflexivity].
Qed.

Lemma init_value_int8_formula DIM seed i j :
  to_int8 (init_value_int8 DIM seed i j)
  = (seed + Z.of_nat i * Z.of_nat DIM + Z.of_nat j) mod 16 - 8.
Proof.
  unfold init_value_int8. rewrite to_int8_of_u64.
  assert (Hd : (16 | 2 ^ 64)) by (exists (2 ^ 60); reflexivity).
  rewrite to_u64_mod by (lia || assumption).
  rewrite to_u64_add_mod by (lia || assumption).
  replace (seed + to_u64 (Z.of_nat i * Z.of_nat DIM) + Z.of_nat j)
    with (to_u64 (Z.of_nat i * Z.of_nat DIM) + (seed + Z.of_nat j)) by lia.
  rewrite to_u64_add_mod by (lia || assumption).
  replace (Z.of_nat i * Z.of_nat DIM + (seed + Z.of_nat j))
    with (seed + Z.of_nat i * Z.of_nat DIM + Z.of_nat j) by lia.
  apply to_int8_id.
  pose proof (Z.mod_pos_bound (seed + Z.of_nat i * Z.of_nat DIM + Z.of_nat j) 16). lia.
Qed.

Lemma init_value_int32_formula seed i :
  to_int32 (init_value_int32 seed i) = (seed + Z.of_nat i) mod 64 - 32.
Proof.
  unfold init_value_int32. rewrite to_int32_of_u64.
  rewrite to_u64_mod by (lia || (exists (2 ^ 58); reflexivity)).
  apply to_int32_id. pose proof (Z.mod_pos_bound (seed + Z.of_nat i) 64). lia.
Qed.

Lemma init_value_vec_formula seed i :
  0 ≤ seed → seed + Z.of_nat i < 2 ^ 64 →
  to_int32 (init_value_vec seed i) = (seed + Z.of_nat i) mod 100 - 50.
Proof.
  intros Hs Hlt. unfold init_value_vec. rewrite to_int32_of_u64.
  unfold to_u64 at 1, wrap_u. rewrite (Z.mod_small (seed + _)) by lia.
  apply to_int32_id. pose proof (Z.mod_pos_bound (seed + Z.of_nat i) 100). lia.
Qed.

(** ** Loops *)

Lemma for_loop_S {S} n body (s : S) :
  for_loop (Datatypes.S n) body s = body n (for_loop n body s).
Proof. unfold for_loop. rewrite seq_S, foldl_app. reflexivity. Qed.

Lemma for_loop_ind {S} (P : nat → S → Prop) n body (s : S) :
  P 0%nat s →
  (∀ i s, (i < n)%nat → P i s → P (Datatypes.S i) (body i s)) →
  P n (for_loop n body s).
Proof.
  intros H0 Hstep. induction n as [|n IH]; [exact H0|].
  rewrite for_loop_S. apply Hstep; [lia|]. apply IH. intros; apply Hstep; [lia | assumption].
Qed.

Lemma for_loop_ext {S} n (f g : nat → S → S) (s : S) :
  (∀ i s, (i < n)%nat → f i s = g i s) → for_loop n f s = for_loop n g s.
Proof.
  intros H. induction n as [|n IH]; [reflexivity|].
  rewrite !for_loop_S, IH by (intros; apply H; lia). apply H; lia.
Qed.

Lemma for_loop_add {S} a b body (s : S) :
  for_loop (a + b) body s = for_loop b (λ i, body (a + i)%nat) (for_loop a body s).
Proof.
  induction b as [|b IH]; [rewrite Nat.add_0_r; reflexivity|].
  rewrite Nat.add_succ_r, !for_loop_S, IH. reflexivity.
Qed.

(** Two nested counting loops visit the pairs in row-major order. *)
Lemma for_loop_flatten {S} a b (g : nat → nat → S → S) (s : S) :
  for_loop a (λ i s, for_loop b (g i) s) s
  = for_loop (a * b) (λ k, g (k / b)%nat (k mod b)%nat) s.
Proof.
  induction a as [|a IH]; [reflexivity|].
  rewrite for_loop_S, IH.
  replace (Datatypes.S a * b)%nat with (a * b + b)%nat by lia.
  rewrite for_loop_add. apply for_loop_ext. intros i s' Hi.
  assert (Hb : b ≠ 0%nat) by lia.
  replace ((a * b + i) / b)%nat with a
    by (apply (Nat.div_unique _ _ _ i); lia).
  replace ((a * b + i) mod b)%nat with i
    by (apply (Nat.mod_unique _ _ a); lia).
  reflexivity.
Qed.

Lemma cell_index DIM i j :
  (i < DIM)%nat → (j < DIM)%nat →
  ((i * DIM + j) / DIM = i ∧ (i * DIM + j) mod DIM = j ∧ i * DIM + j < DIM * DIM)%nat.
Proof.
  intros Hi Hj. split; [|split].
  - symmetry. apply (Nat.div_unique _ _ _ j); lia.
  - symmetry. apply (Nat.mod_unique _ _ i); lia.
  - nia.
Qed.

(** ** Pointers and stores *)

Lemma padd_inj p i j : p +ₚ i = p +ₚ j → i = j.
Proof. unfold padd. intros H. injection H. lia. Qed.

Lemma padd_padd p a b : p +ₚ a +ₚ b = p +ₚ (a + b).
Proof. unfold padd. simpl. f_equal. lia. Qed.

Lemma idx2_flat DIM mat k : DIM ≠ 0%nat → idx2 DIM mat (k / DIM) (k mod DIM) = mat +ₚ k.
Proof.
  intros H. unfold idx2. f_equal.
  pose proof (Nat.div_mod k DIM H). lia.
Qed.

Section StoreLoop.

Variables (p : ptr) (v : nat → mem → Z) (body : nat → mem → mem).
Hypothesis body_stores : ∀ i m, body i m = <[p +ₚ i := v i m]> m.

(** A loop that stores to [p[i]] at pass [i] leaves every other cell alone. *)
Lemma store_loop_other n m q :
  (∀ i, (i < n)%nat → q ≠ p +ₚ i) → for_loop n body m q = m q.
Proof.
  intros Hq. induction n as [|n IH]; [reflexivity|].
  rewrite for_loop_S, body_stores, fn_lookup_insert_ne.
  - apply IH. intros; apply Hq; lia.
  - intros E. apply (Hq n); [lia | congruence].
Qed.

(** What ends up in [p[k]] is what pass [k] computed from the memory it saw. *)
Lemma store_loop_at n m k :
  (k < n)%nat → for_loop n body m (p +ₚ k) = v k (for_loop k body m).
Proof.
  intros Hk. induction n as [|n IH]; [lia|].
  rewrite for_loop_S, body_stores.
  destruct (decide (k = n)) as [->|Hne].
  - apply fn_lookup_insert.
  - rewrite fn_lookup_insert_ne by (intros E; apply padd_inj in E; lia).
    apply IH. lia.
Qed.

End StoreLoop.

(** A fill of a [DIM]×[DIM] matrix is a store loop over its flat cells. *)
Lemma fill8_flat DIM mat (v : nat → nat → mem → Z) m :
  for_loop DIM (λ i m, for_loop DIM (λ j m, store8 m (idx2 DIM mat i j) (v i j m)) m) m
  = for_loop (DIM * DIM)
      (λ k m, <[mat +ₚ k := to_int8 (v (k / DIM)%nat (k mod DIM)%nat m)]> m) m.
Proof.
  rewrite (for_loop_flatten DIM DIM
             (λ i j m, store8 m (idx2 DIM mat i j) (v i j m))).
  apply for_loop_ext. intros k m' Hk. unfold store8.
  rewrite idx2_flat by lia. reflexivity.
Qed.

Lemma read_buffer_const_loop p (c : nat → Z) body n m :
  (∀ i m, body i m = <[p +ₚ i := c i]> m) →
  read_buffer (for_loop n body m) p n = map c (seq 0 n).
Proof.
  intros Hb. unfold read_buffer. apply map_ext_in. intros k Hk.
  apply in_seq in Hk.
  rewrite (store_loop_at p (λ i _, c i) body Hb) by lia. reflexivity.
Qed.

(** ** Data generators *)

(** C8: the fillers are deterministic.  Whatever the memory held before and
    wherever the buffer lies, filling with the same seed (and length) leaves
    the same cells, byte for byte. *)
Theorem generators_deterministic (DIM : nat) (seed : Z) (len : nat)
    (buf1 buf2 : ptr) (m1 m2 : mem) :
  read_buffer (init_matrix_int8 DIM buf1 seed m1) buf1 (DIM * DIM)
  = read_buffer (init_matrix_int8 DIM buf2 seed m2) buf2 (DIM * DIM)
  ∧ read_buffer (init_matrix_int32 buf1 len seed m1) buf1 len
    = read_buffer (init_matrix_int32 buf2 len seed m2) buf2 len
  ∧ read_buffer (init_vector_int32 buf1 len seed m1) buf1 len
    = read_buffer (init_vector_int32 buf2 len seed m2) buf2 len.
Proof.
  split; [|split].
  - unfold init_matrix_int8.
    rewrite !(fill8_flat DIM _ (λ i j _, init_value_int8 DIM seed i j)).
    rewrite !(read_buffer_const_loop _
                (λ k, to_int8 (init_value_int8 DIM seed (k / DIM) (k mod DIM))))
      by reflexivity.
    reflexivity.
  - unfold init_matrix_int32.
    rewrite !(read_buffer_const_loop _ (λ k, to_int32 (init_value_int32 seed k)))
      by reflexivity.
    reflexivity.
  - unfold init_vector_int32.
    rewrite !(read_buffer_const_loop _ (λ k, to_int32 (init_value_vec seed k)))
      by reflexivity.
    reflexivity.
Qed.

(** C7: the narrow-matrix generator writes [((seed + i*DIM + j) mod 16) - 8]
    into cell (i, j), a value in [-8, 7]; the wide generators write
    [((seed + i) mod 64) - 32] (generic matrices, in [-32, 31]) and
    [((seed + i) mod 100) - 50] (SAXPY vectors, in [-50, 49]) at every index.
    [seed] is a [uint32_t]; an [int32_t] array has fewer than [2^62]
    elements. *)
Theorem generators_formula (DIM : nat) (seed : Z) (m : mem) :
  0 ≤ seed < 2 ^ 32 →
  (∀ mat i j, (i < DIM)%nat → (j < DIM)%nat →
     let v := load8 (init_matrix_int8 DIM mat seed m) (idx2 DIM mat i j) in
     v = (seed + Z.of_nat i * Z.of_nat DIM + Z.of_nat j) mod 16 - 8 ∧ -8 ≤ v ≤ 7)
  ∧ (∀ mat size i, (i < size)%nat →
     let v := load32 (init_matrix_int32 mat size seed m) (mat +ₚ i) in
     v = (seed + Z.of_nat i) mod 64 - 32 ∧ -32 ≤ v ≤ 31)
  ∧ (∀ vec len i, (i < len)%nat → Z.of_nat len ≤ 2 ^ 62 →
     let v := load32 (init_vector_int32 vec len seed m) (vec +ₚ i) in
     v = (seed + Z.of_nat i) mod 100 - 50 ∧ -50 ≤ v ≤ 49).
Proof.
  intros Hseed. split; [|split].
  - intros mat i j Hi Hj v.
    assert (Hv : v = (seed + Z.of_nat i * Z.of_nat DIM + Z.of_nat j) mod 16 - 8).
    { subst v. unfold init_matrix_int8, load8.
      rewrite (fill8_flat DIM mat (λ i j _, init_value_int8 DIM seed i j)).
      destruct (cell_index DIM i j Hi Hj) as (Hd & Hm & Hlt).
      unfold idx2.
      rewrite (store_loop_at mat
                 (λ k _, to_int8 (init_value_int8 DIM seed (k / DIM) (k mod DIM))))
        by (reflexivity || assumption).
      rewrite Hd, Hm, to_int8_idem. apply init_value_int8_formula. }
    split; [exact Hv|].
    pose proof (Z.mod_pos_bound (seed + Z.of_nat i * Z.of_nat DIM + Z.of_nat j) 16).
    lia.
  - intros mat size i Hi v.
    assert (Hv : v = (seed + Z.of_nat i) mod 64 - 32).
    { subst v. unfold init_matrix_int32, load32.
      rewrite (store_loop_at mat (λ k _, to_int32 (init_value_int32 seed k)))
        by (reflexivity || assumption).
      rewrite to_int32_idem. apply init_value_int32_formula. }
    split; [exact Hv|].
    pose proof (Z.mod_pos_bound (seed + Z.of_nat i) 64). lia.
  - intros vec len i Hi Hlen v.
    assert (Hv : v = (seed + Z.of_nat i) mod 100 - 50).
    { subst v. unfold init_vector_int32, load32.
      rewrite (store_loop_at vec (λ k _, to_int32 (init_value_vec seed k)))
        by (reflexivity || assumption).
      rewrite to_int32_idem. apply init_value_vec_formula; [lia|].
      assert (2 ^ 62 + 2 ^ 32 < 2 ^ 64) by reflexivity. lia. }
    split; [exact Hv|].
    pose proof (Z.mod_pos_bound (seed + Z.of_nat i) 100). lia.
Qed.

(** ** SAXPY *)

Lemma load32_agree (m1 m2 : mem) p : m1 p = m2 p → load32 m1 p = load32 m2 p.
Proof. unfold load32. intros ->. reflexivity. Qed.

Lemma scalar_saxpy_body a x y i (m : mem) :
  store32 m (y +ₚ i) (to_int32 (to_int32 (a * load32 m (x +ₚ i)) + load32 m (y +ₚ i)))
  = <[y +ₚ i := to_int32 (a * load32 m (x +ₚ i) + load32 m (y +ₚ i))]> m.
Proof. unfold store32. rewrite to_int32_idem, to_int32_add_l. reflexivity. Qed.

Lemma scalar_saxpy_other a x y n (m : mem) q :
  (∀ i, (i < n)%nat → q ≠ y +ₚ i) → scalar_saxpy a x y n m q = m q.
Proof.
  intros Hq. unfold scalar_saxpy.
  apply (store_loop_other y
           (λ i m, to_int32 (a * load32 m (x +ₚ i) + load32 m (y +ₚ i))));
    [intros; apply scalar_saxpy_body | exact Hq].
Qed.

Lemma scalar_saxpy_at a x y n (m : mem) k :
  disjoint_buffers x y n → (k < n)%nat →
  scalar_saxpy a x y n m (y +ₚ k)
  = to_int32 (a * load32 m (x +ₚ k) + load32 m (y +ₚ k)).
Proof.
  intros Hd Hk. unfold scalar_saxpy.
  rewrite (store_loop_at y
             (λ i m, to_int32 (a * load32 m (x +ₚ i) + load32 m (y +ₚ i))))
    by (intros; apply scalar_saxpy_body || assumption).
  fold (scalar_saxpy a x y k m).
  rewrite (load32_agree (scalar_saxpy a x y k m) m (x +ₚ k)),
          (load32_agree (scalar_saxpy a x y k m) m (y +ₚ k)); [reflexivity| |].
  - apply scalar_saxpy_other. intros i Hi E. apply padd_inj in E. lia.
  - apply scalar_saxpy_other. intros i Hi. apply Hd; lia.
Qed.

(** C10: [scalar_saxpy] sets the first [n] elements of [y] to
    [alpha*x[i] + y[i]] (an [int32_t], equal to the exact value whenever that
    fits) and changes no other cell: not [y] from index [n] on, not the [x]
    buffer.  [x] and [y] are two buffers, so they share no cell. *)
Theorem scalar_saxpy_frame (a : Z) (x y : ptr) (n : nat) (m : mem) :
  disjoint_buffers x y n →
  let m' := scalar_saxpy a x y n m in
  (∀ i, (i < n)%nat →
     let exact := a * load32 m (x +ₚ i) + load32 m (y +ₚ i) in
     load32 m' (y +ₚ i) = to_int32 exact
     ∧ (-2147483648 ≤ exact ≤ 2147483647 → load32 m' (y +ₚ i) = exact))
  ∧ (∀ i, (n ≤ i)%nat → m' (y +ₚ i) = m (y +ₚ i))
  ∧ (∀ i, (i < n)%nat → m' (x +ₚ i) = m (x +ₚ i))
  ∧ (∀ q, (∀ i, (i < n)%nat → q ≠ y +ₚ i) → m' q = m q).
Proof.
  intros Hd m'. subst m'. repeat split.
  - unfold load32 at 1. rewrite scalar_saxpy_at by assumption. apply to_int32_idem.
  - intros Hfit. unfold load32 at 1. rewrite scalar_saxpy_at by assumption.
    rewrite to_int32_idem. apply to_int32_id, Hfit.
  - intros i Hi. apply scalar_saxpy_other. intros k Hk E. apply padd_inj in E. lia.
  - intros i Hi. apply scalar_saxpy_other. intros k Hk. apply Hd; assumption.
  - intros q Hq. apply scalar_saxpy_other, Hq.
Qed.

(** One pass of the vector loop. *)
Section VectorPass.

Variable hw : platform.
Hypothesis conformant : rvv_conformant hw.

Variables (a : Z) (x y : ptr) (m : mem) (vl : nat).

Lemma vector_pass_length : length (pass_register hw a x y m vl) = vl.
Proof.
  unfold pass_register, vadd_vv, vmul_vx, vle32.
  rewrite length_zip_with, !length_fmap, length_seq. lia.
Qed.

Lemma vector_pass_lane k :
  (k < vl)%nat → (pass_register hw a x y m vl) !!! k = to_int32 (a * load32 m (x +ₚ k) + load32 m (y +ₚ k)).
Proof.
  intros Hk. apply list_lookup_total_correct.
  unfold pass_register, vadd_vv, vmul_vx, vle32.
  rewrite lookup_zip_with, !list_lookup_fmap, lookup_seq_lt by assumption.
  simpl. rewrite (conf_mul hw conformant), (conf_add hw conformant).
  unfold rvv_add, rvv_mul. rewrite to_int32_add_l, (Z.mul_comm a). reflexivity.
Qed.

Lemma vector_pass_other q :
  (∀ k, (k < vl)%nat → q ≠ y +ₚ k) → vse32 (pass_register hw a x y m vl) m y q = m q.
Proof.
  intros Hq. unfold vse32. rewrite vector_pass_length.
  apply (store_loop_other y (λ k _, to_int32 ((pass_register hw a x y m vl) !!! k))); [reflexivity | exact Hq].
Qed.

Lemma vector_pass_at k :
  (k < vl)%nat →
  vse32 (pass_register hw a x y m vl) m y (y +ₚ k) = to_int32 (a * load32 m (x +ₚ k) + load32 m (y +ₚ k)).
Proof.
  intros Hk. unfold vse32. rewrite vector_pass_length.
  rewrite (store_loop_at y (λ k _, to_int32 ((pass_register hw a x y m vl) !!! k))) by (reflexivity || assumption).
  rewrite vector_pass_lane by assumption. apply to_int32_idem.
Qed.

End VectorPass.

(** The strip-mined loop: it ends, and it did what the scalar loop does. *)
Lemma ara_vector_saxpy_loop_spec hw a :
  rvv_conformant hw →
  ∀ fuel x y n (m : mem),
    (n ≤ fuel)%nat → disjoint_buffers x y n →
    ∃ m', ara_vector_saxpy_loop hw fuel a x y n m = Some m'
          ∧ (∀ k, (k < n)%nat →
               m' (y +ₚ k) = to_int32 (a * load32 m (x +ₚ k) + load32 m (y +ₚ k)))
          ∧ (∀ q, (∀ k, (k < n)%nat → q ≠ y +ₚ k) → m' q = m q).
Proof.
  intros Hc. induction fuel as [|fuel IH]; intros x y n m Hfuel Hd.
  - assert (n = 0%nat) as -> by lia. exists m. simpl. split; [reflexivity|]. split; [intros; lia | intros; reflexivity].
  - destruct n as [|n'].
    { exists m. simpl. split; [reflexivity|]. split; [intros; lia | intros; reflexivity]. }
    set (n := S n') in *.
    set (vl := vsetvli_e32m1 hw n).
    assert (Hvl : (0 < vl ≤ n)%nat).
    { unfold vl, vsetvli_e32m1. pose proof (conf_vlmax hw Hc). lia. }
    set (m1 := vse32 (pass_register hw a x y m vl) m y).
    destruct (IH (x +ₚ vl) (y +ₚ vl) (n - vl)%nat m1) as (m' & Hrun & Hat & Hother).
    { lia. }
    { intros i j Hi Hj. rewrite !padd_padd. apply Hd; lia. }
    exists m'. split; [exact Hrun|]. split.
    + intros k Hk. destruct (decide (k < vl)%nat) as [Hlt|Hge].
      * rewrite Hother by (intros k' Hk'; rewrite padd_padd; intros E;
                           apply padd_inj in E; lia).
        apply (vector_pass_at hw Hc); assumption.
      * replace k with (vl + (k - vl))%nat by lia. rewrite <- !padd_padd.
        rewrite Hat by lia.
        rewrite (load32_agree m1 m (x +ₚ vl +ₚ (k - vl))),
                (load32_agree m1 m (y +ₚ vl +ₚ (k - vl))); [reflexivity| |].
        -- apply (vector_pass_other hw). intros j Hj. rewrite padd_padd.
           intros E. apply padd_inj in E. lia.
        -- apply (vector_pass_other hw). intros j Hj. rewrite padd_padd.
           apply Hd; lia.
    + intros q Hq. rewrite Hother.
      * apply (vector_pass_other hw). intros k Hk. apply Hq. lia.
      * intros k Hk. rewrite padd_padd. apply Hq. lia.
Qed.

(** C3: on a conformant vector unit, for every [alpha], every length [n]
    (zero, below the vector width, or not a multiple of it) and every pair of
    buffers, [ara_vector_saxpy] terminates and leaves [y] element-wise equal
    to what [scalar_saxpy] leaves in [y_copy], an independent copy of the
    original [y]. *)
Theorem ara_vector_saxpy_refines_scalar (hw : platform) (a : Z)
    (x y y_copy : ptr) (n : nat) (m : mem) :
  rvv_conformant hw →
  disjoint_buffers x y n →
  disjoint_buffers x y_copy n →
  (∀ i, (i < n)%nat → load32 m (y_copy +ₚ i) = load32 m (y +ₚ i)) →
  ∃ m', ara_vector_saxpy hw a x y n m = Some m'
        ∧ ∀ i, (i < n)%nat →
            load32 m' (y +ₚ i) = load32 (scalar_saxpy a x y_copy n m) (y_copy +ₚ i).
Proof.
  intros Hc Hxy Hxc Hcopy.
  destruct (ara_vector_saxpy_loop_spec hw a Hc n x y n m (le_n n) Hxy)
    as (m' & Hrun & Hat & _).
  exists m'. split; [exact Hrun|]. intros i Hi.
  unfold load32 at 1 2. rewrite Hat, scalar_saxpy_at, Hcopy by assumption.
  reflexivity.
Qed.

(** ** Narrow matrix multiply *)

Lemma saturate_int8_clamp sum : saturate_int8 sum = clamp_int8 sum.
Proof.
  unfold saturate_int8, clamp_int8. cbv zeta.
  destruct (Z.ltb_spec 127 sum) as [H|H].
  - change (127 <? -128) with false. cbv iota. lia.
  - destruct (Z.ltb_spec sum (-128)); lia.
Qed.

Lemma clamp_int8_range z : -128 ≤ clamp_int8 z ≤ 127.
Proof. unfold clamp_int8. lia. Qed.

Lemma foldr_add_snoc (l : list Z) (z : Z) :
  foldr Z.add 0 (l ++ [z]) = foldr Z.add 0 l + z.
Proof. induction l as [|h l IH]; simpl; [lia | rewrite IH; lia]. Qed.

(** A 32-bit accumulation of [n] bounded terms is exact while [n] times the
    bound fits in an [int32_t]. *)
Lemma accumulate_exact (f : nat → Z) (bound : Z) n :
  (∀ k, - bound ≤ f k ≤ bound) → Z.of_nat n * bound ≤ 2147483647 →
  let sum := for_loop n (λ k sum, to_int32 (sum + to_int32 (f k))) 0 in
  sum = foldr Z.add 0 (map f (seq 0 n)) ∧ - (Z.of_nat n * bound) ≤ sum ≤ Z.of_nat n * bound.
Proof.
  intros Hf. induction n as [|n IH]; intros Hfit sum.
  - subst sum. unfold for_loop. simpl. split; [reflexivity | lia].
  - assert (0 ≤ bound) by (specialize (Hf 0%nat); lia).
    destruct IH as [IHsum IHrange]; [nia|].
    subst sum. rewrite for_loop_S, seq_S, map_app.
    change (map f [(0 + n)%nat]) with [f n]. rewrite foldr_add_snoc.
    rewrite <- IHsum. specialize (Hf n).
    rewrite (to_int32_id (f n)) by nia.
    rewrite to_int32_id by nia. split; [reflexivity | nia].
Qed.

Lemma scalar_matmul_int8_flat DIM A B C (m : mem) :
  scalar_matmul_int8 DIM A B C m
  = for_loop (DIM * DIM) (λ k m,
      <[C +ₚ k := to_int8 (saturate_int8
          (for_loop DIM (λ k' sum,
             to_int32 (sum + to_int32 (load8 m (idx2 DIM A (k / DIM) k')
                                       * load8 m (idx2 DIM B k' (k mod DIM))))) 0))]> m) m.
Proof.
  unfold scalar_matmul_int8.
  apply (fill8_flat DIM C (λ i j m, saturate_int8
          (for_loop DIM (λ k' sum,
             to_int32 (sum + to_int32 (load8 m (idx2 DIM A i k')
                                       * load8 m (idx2 DIM B k' j)))) 0))).
Qed.

(** C2: every output cell of [scalar_matmul_int8] is the exact dot product of
    the row of [A] and the column of [B], accumulated in 32 bits and clamped
    into [-128, 127]; a dot product above 127 (below -128) is stored as 127
    (-128).  [DIM] products of two [int8_t] fit an [int32_t]; the output
    matrix shares no cell with the inputs. *)
Theorem scalar_matmul_int8_clamped_dot (DIM : nat) (A B C : ptr) (m : mem) (i j : nat) :
  Z.of_nat DIM * 16384 ≤ 2147483647 →
  disjoint_buffers A C (DIM * DIM) →
  disjoint_buffers B C (DIM * DIM) →
  (i < DIM)%nat → (j < DIM)%nat →
  let cell := load8 (scalar_matmul_int8 DIM A B C m) (idx2 DIM C i j) in
  let dot := dot_product DIM m A B i j in
  cell = clamp_int8 dot
  ∧ (127 < dot → cell = 127)
  ∧ (dot < -128 → cell = -128).
Proof.
  intros Hfit HA HB Hi Hj cell dot.
  assert (Hcell : cell = clamp_int8 dot).
  { subst cell dot. unfold load8, idx2 at 1. rewrite scalar_matmul_int8_flat.
    destruct (cell_index DIM i j Hi Hj) as (Hd & Hm & Hlt).
    set (body := λ (k : nat) (m : mem), <[C +ₚ k := _]> m).
    rewrite (store_loop_at C _ body (λ _ _, eq_refl)) by assumption.
    rewrite Hd, Hm, to_int8_idem.
    set (mk := for_loop (i * DIM + j) body m).
    assert (Hframe : ∀ q a, (a < DIM * DIM)%nat → disjoint_buffers q C (DIM * DIM) →
                            load8 mk (q +ₚ a) = load8 m (q +ₚ a)).
    { intros q a Ha Hq. unfold load8. f_equal.
      apply (store_loop_other C _ body (λ _ _, eq_refl)).
      intros c Hc. apply Hq; lia. }
    rewrite (for_loop_ext DIM _
               (λ k' sum, to_int32 (sum + to_int32 (load8 m (idx2 DIM A i k')
                                                   * load8 m (idx2 DIM B k' j))))).
    2:{ intros k' s Hk'. unfold idx2.
        rewrite (Hframe A), (Hframe B) by (assumption || nia). reflexivity. }
    destruct (accumulate_exact
                (λ k', load8 m (idx2 DIM A i k') * load8 m (idx2 DIM B k' j))
                16384 DIM) as [Hsum _]; [|assumption|].
    { intros k'. unfold load8.
      pose proof (to_int8_range (m (idx2 DIM A i k'))).
      pose proof (to_int8_range (m (idx2 DIM B k' j))). nia. }
    rewrite Hsum, saturate_int8_clamp.
    apply to_int8_id, clamp_int8_range. }
  split; [exact Hcell|]. rewrite Hcell. unfold clamp_int8. split; lia.
Qed.

(** ** Verification of the Gemmini result *)

Lemma emit_lines_nil s : emit_lines [] s = s.
Proof. destruct s. unfold emit_lines. simpl. rewrite app_nil_r. reflexivity. Qed.

Lemma emit_lines_cons fmt args lines s :
  emit_lines ((fmt, args) :: lines) s = emit_lines lines (emit fmt args s).
Proof. unfold emit_lines, emit. simpl. rewrite <- app_assoc. reflexivity. Qed.

(** The test of the source, [diff < -1 || diff > 1], is [|diff| > 1]. *)
Lemma tolerance_test_abs diff : (diff <? -1) || (1 <? diff) = (1 <? Z.abs diff).
Proof.
  destruct (Z.ltb_spec diff (-1)), (Z.ltb_spec 1 diff), (Z.ltb_spec 1 (Z.abs diff));
    simpl; try reflexivity; lia.
Qed.

Section GuardedScan.

Context {S : Type} (guard : S → bool) (body : nat → nat → S → S).

Lemma guarded_foldl_left {X} (f : X → S → S) (l : list X) (s : S) :
  guard s = false → foldl (λ s x, if guard s then f x s else s) s l = s.
Proof. intros Hg. induction l as [|x l IH]; simpl; [reflexivity|]. rewrite Hg. exact IH. Qed.

Lemma guarded_row rows cols (s : S) :
  foldl (λ s i, if guard s
                then foldl (λ s j, if guard s then body i j s else s) s cols
                else s) s rows
  = foldl (λ s c, if guard s then body c.1 c.2 s else s) s
      (flat_map (λ i, map (pair i) cols) rows).
Proof.
  revert s. induction rows as [|i rows IH]; intros s; [reflexivity|].
  simpl. rewrite foldl_app, <- IH. f_equal.
  destruct (guard s) eqn:Hg.
  - clear IH. revert s Hg. induction cols as [|j cols IHc]; intros s Hg; [reflexivity|].
    simpl. rewrite Hg.
    destruct (guard (body i j s)) eqn:Hg'; [apply IHc; exact Hg'|].
    rewrite !guarded_foldl_left by exact Hg'. reflexivity.
  - symmetry. apply guarded_foldl_left. exact Hg.
Qed.

(** The two nested guarded loops scan the cells in row-major order until the
    guard fails. *)
Lemma for_loop_while_nested n (s : S) :
  for_loop_while n guard (λ i s, for_loop_while n guard (body i) s) s
  = foldl (λ s c, if guard s then body c.1 c.2 s else s) s (cells n).
Proof. unfold for_loop_while, cells. apply guarded_row. Qed.

End GuardedScan.

Lemma gemmini_verify_scan DIM fmt cs : ∀ (budget : nat) (s : state),
  (budget ≤ 5)%nat →
  foldl (λ acc c, if acc.1 <? 5 then gemmini_verify_cell DIM fmt c.1 c.2 acc else acc)
    (5 - Z.of_nat budget, s) cs
  = let mis := filter (λ c, is_mismatch DIM (st_mem s) c = true) cs in
    (5 - Z.of_nat budget + Z.of_nat (Nat.min budget (length mis)),
     emit_lines (map (mismatch_line DIM fmt (st_mem s)) (take budget mis)) s).
Proof.
  induction cs as [|c cs IH]; intros budget s Hb.
  - simpl. rewrite filter_nil, Nat.min_0_r, take_nil. simpl.
    rewrite emit_lines_nil. f_equal. lia.
  - destruct budget as [|b].
    + rewrite (guarded_foldl_left (λ acc : Z * state, acc.1 <? 5)) by reflexivity.
      simpl. rewrite emit_lines_nil. reflexivity.
    + cbn [foldl fst]. replace (5 - Z.of_nat (S b) <? 5) with true
        by (symmetry; apply Z.ltb_lt; lia).
      unfold gemmini_verify_cell at 2. rewrite tolerance_test_abs.
      fold (is_mismatch DIM (st_mem s) c).
      destruct (is_mismatch DIM (st_mem s) c) eqn:Hc.
      * rewrite filter_cons_True by exact Hc.
        replace (to_int32 (5 - Z.of_nat (S b) + 1)) with (5 - Z.of_nat b)
          by (rewrite to_int32_id; lia).
        rewrite IH by lia. cbn [st_mem emit]. cbv zeta.
        cbn [take map length]. fold (mismatch_line DIM fmt (st_mem s) c).
        unfold mismatch_line at 2. rewrite emit_lines_cons.
        f_equal. lia.
      * rewrite filter_cons_False by (rewrite Hc; discriminate).
        apply (IH (S b) s Hb).
Qed.

Lemma gemmini_verify_run (DIM : nat) (fmt : string) (s : state) :
  gemmini_verify DIM fmt s
  = Ok (Z.of_nat (Nat.min 5 (length (mismatches DIM (st_mem s)))))
       (emit_lines (map (mismatch_line DIM fmt (st_mem s))
                        (take 5 (mismatches DIM (st_mem s)))) s).
Proof.
  unfold gemmini_verify.
  rewrite (for_loop_while_nested (λ acc : Z * state, acc.1 <? 5)
             (gemmini_verify_cell DIM fmt)).
  change (0, s) with (5 - Z.of_nat 5, s).
  rewrite (gemmini_verify_scan DIM fmt (cells DIM) 5 s (le_n 5)).
  reflexivity.
Qed.

(** C4 (as the code has it): the verification scans the cells in row-major
    order, records and prints every cell more than 1 away from the
    reference, and stops at the fifth; its count is the smaller of 5 and the
    number of mismatching cells, and is zero exactly when no cell of the
    matrix mismatches. *)
Theorem gemmini_verify_capped (DIM : nat) (fmt : string) (s : state) :
  let mis := mismatches DIM (st_mem s) in
  gemmini_verify DIM fmt s
  = Ok (Z.of_nat (Nat.min 5 (length mis)))
       (emit_lines (map (mismatch_line DIM fmt (st_mem s)) (take 5 mis)) s)
  ∧ (Z.of_nat (Nat.min 5 (length mis)) = 0 ↔ mis = []).
Proof.
  intros mis. split; [apply gemmini_verify_run|].
  destruct mis as [|c mis']; simpl; [tauto|]. split; [lia | discriminate].
Qed.

(** C4, as stated, fails: with nine mismatching cells the count is 5. *)
Lemma gemmini_verify_count_not_total :
  length (mismatches 3 (st_mem all_cells_off)) = 9%nat
  ∧ exit_code (gemmini_verify 3 "  Mismatch at [%zu][%zu]: got %d, expected %d\n"
                 all_cells_off) = Some 5.
Proof. split; vm_compute; reflexivity. Qed.

(** ** Running the phases *)

Lemma ara_vector_saxpy_terminates hw a x y n (m : mem) :
  (0 < VLMAX hw)%nat → ∃ m', ara_vector_saxpy hw a x y n m = Some m'.
Proof.
  intros Hvl. unfold ara_vector_saxpy.
  assert (H : ∀ fuel n x y (m : mem), (n ≤ fuel)%nat →
                ∃ m', ara_vector_saxpy_loop hw fuel a x y n m = Some m').
  { induction fuel as [|fuel IH]; intros n' x' y' m0 Hle.
    - assert (n' = 0%nat) as -> by lia. exists m0. reflexivity.
    - destruct n' as [|n'']; [exists m0; reflexivity|].
      simpl. apply IH. unfold vsetvli_e32m1. lia. }
  apply H. lia.
Qed.

(** Symbolic execution of a phase: the monad and the primitive steps are
    unfolded, the kernels are not. *)
Ltac exec :=
  cbv beta iota zeta delta
    [mbind M_bind mret M_ret puts printf mem_op read_csr_mcycle read_csr_minstret
     enable_vector_extension gemmini_flush gemmini_config_ld gemmini_config_st
     gemmini_mvin gemmini_config_ex gemmini_preload_zeros gemmini_compute_preloaded
     gemmini_mvout gemmini_fence run_ara_vector_saxpy udiv64
     emit emit_lines issue with_mem final_state exit_code is_fault
     st_mem st_console st_accel st_csr_reads st_mstatus].

Ltac exec_verify :=
  match goal with
  | |- context [gemmini_verify ?d ?f ?s] =>
      rewrite (gemmini_verify_run d f s)
  end.

Ltac exec_branch :=
  match goal with
  | |- context [if ?c then _ else _] => destruct c
  end.

Ltac exec_ara Hvl :=
  match goal with
  | |- context [ara_vector_saxpy ?h ?a ?x ?y ?n ?m] =>
      let E := fresh "E" in
      destruct (ara_vector_saxpy_terminates h a x y n m Hvl) as [? E]; rewrite E
  end.

Ltac trace_done :=
  unfold gemmini_protocol, sizeof_elem_t; rewrite ?Nat.mul_1_r;
  rewrite <- ?app_assoc; reflexivity.

Lemma sp_regions_disjoint DIM row :
  ¬ (sp_region DIM 0 row ∧ sp_region DIM DIM row)
  ∧ ¬ (sp_region DIM 0 row ∧ sp_region DIM (2 * DIM) row)
  ∧ ¬ (sp_region DIM DIM row ∧ sp_region DIM (2 * DIM) row).
Proof. unfold sp_region. lia. Qed.

(** C1: every Gemmini phase of the two programs issues, after its flush,
    exactly: configure load stride, configure store stride, move-in A,
    move-in B, configure execute mode, preload zeros, compute, move-out,
    fence; and the scratchpad regions [0, DIM), [DIM, 2*DIM) and
    [2*DIM, 3*DIM) used for A, B and C are pairwise disjoint.  (In
    [test_comparison] the vector loop runs first and has to end.) *)
Theorem gemmini_protocol_order (DIM : nat) (hw : platform) (s : state) :
  st_accel (final_state (Compare.test_gemmini_matmul DIM hw s))
    = st_accel s ++ Flush 0 :: gemmini_protocol DIM
  ∧ st_accel (final_state (Compare.test_performance_comparison DIM hw s))
    = st_accel s ++ Flush 0 :: gemmini_protocol DIM
  ∧ st_accel (final_state (ScalarCompare.test_gemmini_performance DIM hw s))
    = st_accel s ++ Flush 0 :: gemmini_protocol DIM
  ∧ ((0 < VLMAX hw)%nat →
     st_accel (final_state (ScalarCompare.test_comparison DIM hw s))
     = st_accel s ++ Flush 0 :: gemmini_protocol DIM)
  ∧ ∀ row,
      ¬ (sp_region DIM 0 row ∧ sp_region DIM DIM row)
      ∧ ¬ (sp_region DIM 0 row ∧ sp_region DIM (2 * DIM) row)
      ∧ ¬ (sp_region DIM DIM row ∧ sp_region DIM (2 * DIM) row).
Proof.
  destruct s as [m0 con acc reads ms].
  split; [|split; [|split; [|split]]].
  - unfold Compare.test_gemmini_matmul. exec. exec_branch; [trace_done|].
    exec_verify. exec. exec_branch; exec; trace_done.
  - unfold Compare.test_performance_comparison. exec. exec_branch; trace_done.
  - unfold ScalarCompare.test_gemmini_performance. exec.
    exec_verify. exec. exec_branch; exec; trace_done.
  - intros Hvl. unfold ScalarCompare.test_comparison. exec.
    exec_ara Hvl. exec. repeat (exec_branch; [trace_done|]). trace_done.
  - apply sp_regions_disjoint.
Qed.

Ltac printed :=
  repeat (apply in_or_app; first [right; left; reflexivity | left]).

(** ** Derived metrics *)

(** C6 (as the code has it): the speedup is a plain unsigned division of the
    scalar cycles by the accelerated cycles.  With a non-zero accelerated
    delta the quotient is printed; with a zero delta the division by zero is
    performed: there is no guard and no sentinel. *)
Theorem speedup_division_unguarded (DIM : nat) (hw : platform) (s : state) :
  let cycles a b := to_u64 (to_u64 (mcycle_at hw b) - to_u64 (mcycle_at hw a)) in
  let k := st_csr_reads s in
  (let scalar_cycles := cycles k (1 + k)%nat in
   let gemmini_cycles := cycles (2 + k)%nat (3 + k)%nat in
   let r := Compare.test_performance_comparison DIM hw s in
   if gemmini_cycles =? 0
   then is_fault DivideByZero r = true
   else exit_code r = Some 0
        ∧ In ("Gemmini Speedup: %llux faster than scalar CPU\n"%string,
              [scalar_cycles / gemmini_cycles]) (st_console (final_state r)))
  ∧ ((0 < VLMAX hw)%nat →
     let scalar_saxpy_cycles := cycles k (1 + k)%nat in
     let ara_saxpy_cycles := cycles (2 + k)%nat (3 + k)%nat in
     let scalar_matmul_cycles := cycles (4 + k)%nat (5 + k)%nat in
     let gemmini_matmul_cycles := cycles (6 + k)%nat (7 + k)%nat in
     let r := ScalarCompare.test_comparison DIM hw s in
     if (ara_saxpy_cycles =? 0) || (gemmini_matmul_cycles =? 0)
     then is_fault DivideByZero r = true
     else exit_code r = Some 0
          ∧ In ("| Ara (RVV)    | %10llu | %llu.%llux             |\n"%string,
                [ara_saxpy_cycles; scalar_saxpy_cycles / ara_saxpy_cycles;
                 (to_u64 (scalar_saxpy_cycles * 10) / ara_saxpy_cycles) mod 10])
               (st_console (final_state r))
          ∧ In ("| Gemmini      | INT8      | %10llu | %llux       |\n"%string,
                [gemmini_matmul_cycles; scalar_matmul_cycles / gemmini_matmul_cycles])
               (st_console (final_state r))).
Proof.
  destruct s as [m0 con acc reads ms]. split.
  - unfold Compare.test_performance_comparison. exec. cbn [Nat.add].
    exec_branch; [reflexivity|]. split; [reflexivity | printed].
  - intros Hvl. unfold ScalarCompare.test_comparison. exec. cbn [Nat.add].
    exec_ara Hvl. exec.
    repeat match goal with
           | |- context [if Z.eqb ?c 0 then _ else _] => destruct (Z.eqb c 0)
           end; cbn [orb]; try reflexivity.
    split; [reflexivity|]. split; printed.
Qed.

(** C6, as stated, fails: with a cycle counter that does not advance the
    accelerated delta is 0, the report divides by it, and no speedup line
    (sentinel or other) is printed. *)
Lemma speedup_zero_delta_divides :
  let r := Compare.test_performance_comparison 2 hw_frozen_clock boot in
  (is_fault DivideByZero r,
   console_has "Gemmini Speedup: %llux faster than scalar CPU\n" (final_state r))
  = (true, false).
Proof. vm_cast_no_check (@eq_refl (bool * bool) (true, false)). Qed.

(** ** Exit status of ara_gemmini_compare.c *)

Lemma compare_phases_return_0 (DIM : nat) (hw : platform) (s : state) :
  (match Compare.test_scalar_matmul hw s with
    | Ok r _ => r = 0 | Fault f _ => f = DivideByZero end)
  ∧ (match Compare.test_gemmini_matmul DIM hw s with
     | Ok r _ => r = 0 | Fault f _ => f = DivideByZero end)
  ∧ (match Compare.test_performance_comparison DIM hw s with
     | Ok r _ => r = 0 | Fault f _ => f = DivideByZero end).
Proof.
  destruct s as [m0 con acc reads ms]. split; [|split].
  - unfold Compare.test_scalar_matmul. exec. exec_branch; reflexivity.
  - unfold Compare.test_gemmini_matmul. exec. exec_branch; [reflexivity|].
    exec_verify. exec. exec_branch; reflexivity.
  - unfold Compare.test_performance_comparison. exec. exec_branch; reflexivity.
Qed.

(** C5 (as the code has it): the exit code of ara_gemmini_compare.c is the
    bitwise OR of the three phase return values, and every phase returns 0
    whatever its verification found; whenever the program reaches [exit], the
    code is 0. *)
Theorem compare_exit_code (DIM : nat) (hw : platform) (s : state) :
  (∀ s0, match Compare.test_scalar_matmul hw s0 with
         | Ok r _ => r = 0 | Fault f _ => f = DivideByZero end)
  ∧ (∀ s0, match Compare.test_gemmini_matmul DIM hw s0 with
           | Ok r _ => r = 0 | Fault f _ => f = DivideByZero end)
  ∧ (∀ s0, match Compare.test_performance_comparison DIM hw s0 with
           | Ok r _ => r = 0 | Fault f _ => f = DivideByZero end)
  ∧ match Compare.main DIM hw s with
    | Ok code _ => code = 0
    | Fault f _ => f = DivideByZero
    end.
Proof.
  split; [intros s0; exact (proj1 (compare_phases_return_0 DIM hw s0))|].
  split; [intros s0; exact (proj1 (proj2 (compare_phases_return_0 DIM hw s0)))|].
  split; [intros s0; exact (proj2 (proj2 (compare_phases_return_0 DIM hw s0)))|].
  destruct s as [m0 con acc reads ms]. unfold Compare.main. exec.
  match goal with |- context [Compare.test_scalar_matmul hw ?s0] =>
    pose proof (proj1 (compare_phases_return_0 DIM hw s0)) as H1;
    destruct (Compare.test_scalar_matmul hw s0) as [r1 [? ? ? ? ?]|? ?]; [|exact H1]
  end.
  subst r1. exec.
  match goal with |- context [Compare.test_gemmini_matmul DIM hw ?s0] =>
    pose proof (proj1 (proj2 (compare_phases_return_0 DIM hw s0))) as H2;
    destruct (Compare.test_gemmini_matmul DIM hw s0) as [r2 [? ? ? ? ?]|? ?]; [|exact H2]
  end.
  subst r2. exec.
  match goal with |- context [Compare.test_performance_comparison DIM hw ?s0] =>
    pose proof (proj2 (proj2 (compare_phases_return_0 DIM hw s0))) as H3;
    destruct (Compare.test_performance_comparison DIM hw s0) as [r3 [? ? ? ? ?]|? ?];
      [|exact H3]
  end.
  subst r3. exec. reflexivity.
Qed.

(** C5, as stated, fails: the accelerator never writes its result, every cell
    mismatches and is reported, and the program still exits with 0. *)
Lemma compare_exits_0_with_mismatches :
  let r := Compare.main 2 hw_idle_accel boot in
  (exit_code r,
   console_has "  Mismatch at [%zu][%zu]: got %d, expected %d\n" (final_state r))
  = (Some 0, true).
Proof. vm_cast_no_check (@eq_refl (option Z * bool) (Some 0, true)). Qed.

(** ** Exit status of ara_gemmini_scalar_compare.c *)

Lemma for_loop_while_for_loop {S} n (guard : S → bool) body (s : S) :
  for_loop_while n guard body s = for_loop n (λ i s, if guard s then body i s else s) s.
Proof. reflexivity. Qed.

Lemma ara_verify_loop (n : nat) (s : state) :
  let differ i :=
    load32 (st_mem s) (base vec_y +ₚ i) ≠ load32 (st_mem s) (base vec_ref +ₚ i) in
  let acc := for_loop_while n (λ acc : Z * state, acc.1 <? 5)
               ScalarCompare.ara_verify_elem (0, s) in
  st_mem acc.2 = st_mem s ∧ 0 ≤ acc.1 ≤ 5
  ∧ ((acc.1 = 0 ∧ ∀ i, (i < n)%nat → ¬ differ i)
     ∨ (acc.1 ≠ 0 ∧ ∃ i, (i < n)%nat ∧ differ i)).
Proof.
  intros differ. cbv zeta. rewrite for_loop_while_for_loop.
  apply (for_loop_ind (λ k (acc : Z * state),
           st_mem acc.2 = st_mem s ∧ 0 ≤ acc.1 ≤ 5
           ∧ ((acc.1 = 0 ∧ ∀ i, (i < k)%nat → ¬ differ i)
              ∨ (acc.1 ≠ 0 ∧ ∃ i, (i < k)%nat ∧ differ i)))).
  - simpl. split; [reflexivity|]. split; [lia|].
    left. split; [reflexivity | intros i Hi; lia].
  - intros k [e s'] Hk (Hm & He & Hcases). simpl in Hm, He, Hcases.
    assert (Hkeep : (st_mem s' = st_mem s ∧ 0 ≤ e ≤ 5
                     ∧ ((e = 0 ∧ ∀ i, (i < S k)%nat → ¬ differ i)
                        ∨ (e ≠ 0 ∧ ∃ i, (i < S k)%nat ∧ differ i)))
                    ∨ e = 0).
    { destruct Hcases as [[-> _]|[Hne (i & Hi & Hd)]]; [right; reflexivity|].
      left. split; [exact Hm|]. split; [exact He|].
      right. split; [exact Hne|]. exists i. split; [lia | exact Hd]. }
    cbn [fst]. destruct (Z.ltb_spec e 5) as [Hlt|Hge];
      [|destruct Hkeep as [H|H]; [exact H | lia]].
    unfold ScalarCompare.ara_verify_elem. rewrite Hm. fold (differ k).
    destruct (decide (differ k)) as [Hd|Hnd].
    + rewrite bool_decide_eq_true_2 by exact Hd.
      cbn [fst snd st_mem emit]. rewrite to_int32_id by lia.
      split; [exact Hm|]. split; [lia|].
      right. split; [lia|]. exists k. split; [lia | exact Hd].
    + rewrite bool_decide_eq_false_2 by exact Hnd.
      destruct Hkeep as [H | ->]; [exact H|].
      cbn [fst snd]. split; [exact Hm|]. split; [lia|].
      left. split; [reflexivity|]. intros i Hi.
      destruct Hcases as [[_ Hall]|[Hne _]]; [|lia].
      destruct (decide (i = k)) as [->|]; [exact Hnd | apply Hall; lia].
Qed.

Lemma ara_verify_spec (s : state) :
  ∃ e s', ScalarCompare.ara_verify s = Ok e s'
          ∧ st_mem s' = st_mem s
          ∧ ((e = 0 ∧ ¬ ara_mismatch (st_mem s)) ∨ (e ≠ 0 ∧ ara_mismatch (st_mem s))).
Proof.
  unfold ScalarCompare.ara_verify.
  pose proof (ara_verify_loop VEC_LEN s) as H. cbv zeta in H.
  destruct (for_loop_while VEC_LEN _ _ _) as [e s'].
  cbn [fst snd] in H. destruct H as (Hm & He & Hcases).
  exists e, s'. split; [reflexivity|]. split; [exact Hm|].
  unfold ara_mismatch. destruct Hcases as [[-> Hall]|[Hne Hex]].
  - left. split; [reflexivity|]. intros (i & Hi & Hd). exact (Hall i Hi Hd).
  - right. split; [exact Hne | exact Hex].
Qed.

Lemma test_ara_performance_result (hw : platform) (s : state) :
  match ScalarCompare.test_ara_performance hw s with
  | Ok r s' => (r = 1 ∧ ara_mismatch (st_mem s')) ∨ (r = 0 ∧ ¬ ara_mismatch (st_mem s'))
  | Fault f _ => f = Hang
  end.
Proof.
  destruct s as [m0 con acc reads ms]. unfold ScalarCompare.test_ara_performance. exec.
  match goal with
  | |- context [ara_vector_saxpy ?h ?a ?x ?y ?n ?m] =>
      destruct (ara_vector_saxpy h a x y n m) as [m'|]; [|reflexivity]
  end.
  exec.
  match goal with
  | |- context [ScalarCompare.ara_verify ?s0] =>
      destruct (ara_verify_spec s0) as (e & [m1 con1 acc1 reads1 ms1] & E & Hm & Hcases);
      rewrite E
  end.
  cbn [st_mem] in Hm, Hcases. subst m1. exec.
  destruct Hcases as [[-> Hno]|[Hne Hyes]].
  - exec. right. split; [reflexivity | exact Hno].
  - destruct (Z.eqb_spec e 0) as [->|_]; [lia|]. exec.
    left. split; [reflexivity | exact Hyes].
Qed.

Lemma scalar_compare_phases_return_0 (DIM : nat) (hw : platform) (s : state) :
  (∃ s', ScalarCompare.test_scalar_performance hw s = Ok 0 s')
  ∧ (∃ s', ScalarCompare.test_gemmini_performance DIM hw s = Ok 0 s')
  ∧ (match ScalarCompare.test_comparison DIM hw s with
     | Ok r _ => r = 0 | Fault _ _ => True end).
Proof.
  destruct s as [m0 con acc reads ms]. split; [|split].
  - unfold ScalarCompare.test_scalar_performance. exec. eexists. reflexivity.
  - unfold ScalarCompare.test_gemmini_performance. exec. exec_verify. exec.
    exec_branch; exec; eexists; reflexivity.
  - unfold ScalarCompare.test_comparison. exec.
    match goal with
    | |- context [ara_vector_saxpy ?h ?a ?x ?y ?n ?m] =>
        destruct (ara_vector_saxpy h a x y n m) as [m'|]; [|exact I]
    end.
    exec. repeat (exec_branch; [exact I|]). reflexivity.
Qed.

(** The two directions of the exit status on concrete hardware: a vector
    adder that is stuck at zero makes the program exit with 1; an
    accelerator that never writes its result makes every Gemmini cell
    mismatch, and the program exits with 0. *)
Example scalar_compare_exits_1_on_ara_mismatch :
  exit_code (ScalarCompare.main 2 hw_stuck_adder boot) = Some 1.
Proof. vm_cast_no_check (@eq_refl (option Z) (Some 1)). Qed.

Example scalar_compare_exits_0_on_gemmini_mismatch :
  let r := ScalarCompare.main 2 hw_idle_accel boot in
  (exit_code r,
   console_has "  MISMATCH at [%zu][%zu]: got %d, expected %d\n" (final_state r))
  = (Some 0, true).
Proof. vm_cast_no_check (@eq_refl (option Z * bool) (Some 0, true)). Qed.

(** ** The theorems at concrete inputs *)

Lemma globals_disjoint (b1 b2 : block) (n : nat) :
  b1 ≠ b2 → disjoint_buffers (base b1) (base b2) n.
Proof. intros Hne i j _ _ E. apply Hne. exact (f_equal fst E). Defined.

Lemma hw_idle_accel_conformant : rvv_conformant hw_idle_accel.
Proof. split; [simpl; lia | reflexivity | reflexivity]. Defined.

Lemma generators_formula_witness :
  0 ≤ 0x5678 < 2 ^ 32
  ∧ load8 (init_matrix_int8 3 (base gemmini_A) 0x5678 sample_mem)
          (idx2 3 (base gemmini_A) 1 2)
    = (0x5678 + Z.of_nat 1 * Z.of_nat 3 + Z.of_nat 2) mod 16 - 8
  ∧ load32 (init_vector_int32 (base vec_x) 5 0x5678 sample_mem) (base vec_x +ₚ 4)
    = (0x5678 + Z.of_nat 4) mod 100 - 50.
Proof.
  assert (Hseed : 0 ≤ 0x5678 < 2 ^ 32) by (split; [lia | reflexivity]).
  split; [exact Hseed|].
  destruct (generators_formula 3 0x5678 sample_mem Hseed) as (H8 & _ & Hvec).
  split.
  - apply (H8 (base gemmini_A) 1%nat 2%nat); lia.
  - apply (Hvec (base vec_x) 5%nat 4%nat); [lia | vm_compute; discriminate].
Defined.

Lemma scalar_saxpy_frame_witness :
  disjoint_buffers (base vec_x) (base vec_y) 4
  ∧ load32 (scalar_saxpy 3 (base vec_x) (base vec_y) 4 sample_mem) (base vec_y +ₚ 2)
    = 3 * load32 sample_mem (base vec_x +ₚ 2) + load32 sample_mem (base vec_y +ₚ 2)
  ∧ scalar_saxpy 3 (base vec_x) (base vec_y) 4 sample_mem (base vec_y +ₚ 4)
    = sample_mem (base vec_y +ₚ 4)
  ∧ scalar_saxpy 3 (base vec_x) (base vec_y) 4 sample_mem (base vec_x +ₚ 2)
    = sample_mem (base vec_x +ₚ 2).
Proof.
  assert (Hd : disjoint_buffers (base vec_x) (base vec_y) 4)
    by (apply globals_disjoint; discriminate).
  split; [exact Hd|].
  destruct (scalar_saxpy_frame 3 (base vec_x) (base vec_y) 4 sample_mem Hd)
    as (Hset & Hrest & Hx & _).
  split; [|split].
  - apply (Hset 2%nat); [lia | vm_compute; split; discriminate].
  - apply (Hrest 4%nat). lia.
  - apply (Hx 2%nat). lia.
Defined.

Lemma ara_vector_saxpy_refines_scalar_witness :
  rvv_conformant hw_idle_accel
  ∧ ∃ m', ara_vector_saxpy hw_idle_accel 3 (base vec_x) (base vec_y) 6 sample_mem = Some m'
          ∧ ∀ i, (i < 6)%nat →
              load32 m' (base vec_y +ₚ i)
              = load32 (scalar_saxpy 3 (base vec_x) (base vec_ref) 6 sample_mem)
                       (base vec_ref +ₚ i).
Proof.
  split; [exact hw_idle_accel_conformant|].
  apply (ara_vector_saxpy_refines_scalar hw_idle_accel 3
           (base vec_x) (base vec_y) (base vec_ref) 6 sample_mem).
  - exact hw_idle_accel_conformant.
  - apply globals_disjoint. discriminate.
  - apply globals_disjoint. discriminate.
  - intros i Hi. reflexivity.
Defined.

Lemma scalar_matmul_int8_clamped_dot_witness :
  dot_product 3 all_sevens (base gemmini_A) (base gemmini_B) 0 0 = 147
  ∧ load8 (scalar_matmul_int8 3 (base gemmini_A) (base gemmini_B) (base gemmini_ref)
             all_sevens)
          (idx2 3 (base gemmini_ref) 0 0) = 127.
Proof.
  split; [reflexivity|].
  refine (proj1 (proj2 (scalar_matmul_int8_clamped_dot 3
             (base gemmini_A) (base gemmini_B) (base gemmini_ref) all_sevens
             0 0 _ _ _ _ _)) _).
  - vm_compute. discriminate.
  - apply globals_disjoint. discriminate.
  - apply globals_disjoint. discriminate.
  - lia.
  - lia.
  - vm_compute. reflexivity.
Defined.

Lemma gemmini_protocol_order_witness :
  (0 < VLMAX hw_idle_accel)%nat
  ∧ st_accel (final_state (ScalarCompare.test_comparison 2 hw_idle_accel boot))
    = Flush 0 :: gemmini_protocol 2.
Proof.
  assert (Hvl : (0 < VLMAX hw_idle_accel)%nat) by (simpl; lia).
  split; [exact Hvl|].
  exact (proj1 (proj2 (proj2 (proj2 (gemmini_protocol_order 2 hw_idle_accel boot)))) Hvl).
Defined.

Lemma speedup_division_unguarded_witness :
  (0 < VLMAX hw_idle_accel)%nat
  ∧ exit_code (ScalarCompare.test_comparison 2 hw_idle_accel boot) = Some 0.
Proof.
  assert (Hvl : (0 < VLMAX hw_idle_accel)%nat) by (simpl; lia).
  split; [exact Hvl|].
  pose proof (proj2 (speedup_division_unguarded 2 hw_idle_accel boot) Hvl) as Hc.
  cbv zeta in Hc.
  match type of Hc with
  | (if ?c then _ else _) => change c with false in Hc
  end.
  exact (proj1 Hc).
Defined.

(* ================================================================== *)
(** * Further properties of the kernels and the phases *)

(** ** Fills: values and frame *)

Lemma not_in_buffer p n q : ¬ in_buffer p n q → ∀ k, (k < n)%nat → q ≠ p +ₚ k.
Proof. intros H k Hk E. apply H. exists k. split; assumption. Qed.

Lemma fill8_other DIM mat (v : nat → nat → mem → Z) (m : mem) q :
  ¬ in_buffer mat (DIM * DIM) q →
  for_loop DIM (λ i m, for_loop DIM (λ j m, store8 m (idx2 DIM mat i j) (v i j m)) m) m q
  = m q.
Proof.
  intros Hq. rewrite fill8_flat.
  apply (store_loop_other mat
           (λ k m, to_int8 (v (k / DIM)%nat (k mod DIM)%nat m)));
    [reflexivity | apply not_in_buffer, Hq].
Qed.

(** The zeroing utilities leave 0 in every element of the buffer and change
    no cell outside it. *)
Theorem zero_fill (DIM : nat) (mat : ptr) (size : nat) (m : mem) :
  (∀ i j, (i < DIM)%nat → (j < DIM)%nat →
     zero_matrix_int8 DIM mat m (idx2 DIM mat i j) = 0)
  ∧ (∀ q, ¬ in_buffer mat (DIM * DIM) q → zero_matrix_int8 DIM mat m q = m q)
  ∧ (∀ i, (i < size)%nat → zero_matrix_int32 mat size m (mat +ₚ i) = 0)
  ∧ (∀ q, ¬ in_buffer mat size q → zero_matrix_int32 mat size m q = m q).
Proof.
  split; [|split; [|split]].
  - intros i j Hi Hj. unfold zero_matrix_int8.
    rewrite (fill8_flat DIM mat (λ _ _ _, 0)).
    destruct (cell_index DIM i j Hi Hj) as (_ & _ & Hlt). unfold idx2.
    rewrite (store_loop_at mat (λ _ _, to_int8 0)) by (reflexivity || assumption).
    reflexivity.
  - intros q Hq. apply (fill8_other DIM mat (λ _ _ _, 0)), Hq.
  - intros i Hi. unfold zero_matrix_int32.
    rewrite (store_loop_at mat (λ _ _, to_int32 0)) by (reflexivity || assumption).
    reflexivity.
  - intros q Hq. unfold zero_matrix_int32.
    apply (store_loop_other mat (λ _ _, to_int32 0));
      [reflexivity | apply not_in_buffer, Hq].
Qed.

(** The generators write inside their buffer only. *)
Theorem generators_frame (DIM : nat) (buf : ptr) (len : nat) (seed : Z) (m : mem) :
  (∀ q, ¬ in_buffer buf (DIM * DIM) q → init_matrix_int8 DIM buf seed m q = m q)
  ∧ (∀ q, ¬ in_buffer buf len q → init_matrix_int32 buf len seed m q = m q)
  ∧ (∀ q, ¬ in_buffer buf len q → init_vector_int32 buf len seed m q = m q).
Proof.
  split; [|split]; intros q Hq.
  - apply (fill8_other DIM buf (λ i j _, init_value_int8 DIM seed i j)), Hq.
  - unfold init_matrix_int32.
    apply (store_loop_other buf (λ k _, to_int32 (init_value_int32 seed k)));
      [reflexivity | apply not_in_buffer, Hq].
  - unfold init_vector_int32.
    apply (store_loop_other buf (λ k _, to_int32 (init_value_vec seed k)));
      [reflexivity | apply not_in_buffer, Hq].
Qed.

(** ** Matrix multiplies *)

(** [scalar_matmul_int8] writes inside [C] only, and what it leaves there is
    an [int8_t]. *)
Theorem scalar_matmul_int8_frame (DIM : nat) (A B C : ptr) (m : mem) :
  (∀ q, ¬ in_buffer C (DIM * DIM) q → scalar_matmul_int8 DIM A B C m q = m q)
  ∧ (∀ k, (k < DIM * DIM)%nat →
       -128 ≤ scalar_matmul_int8 DIM A B C m (C +ₚ k) ≤ 127).
Proof.
  split.
  - intros q Hq. rewrite scalar_matmul_int8_flat.
    set (body := λ (k : nat) (m : mem), <[C +ₚ k := _]> m).
    apply (store_loop_other C _ body (λ _ _, eq_refl)). apply not_in_buffer, Hq.
  - intros k Hk. rewrite scalar_matmul_int8_flat.
    set (body := λ (k : nat) (m : mem), <[C +ₚ k := _]> m).
    rewrite (store_loop_at C _ body (λ _ _, eq_refl)) by assumption.
    apply to_int8_range.
Qed.

Lemma to_int64_add_l a b : to_int64 (to_int64 a + b) = to_int64 (a + b).
Proof.
  unfold to_int64, wrap_s. f_equal.
  replace ((a + 2 ^ (64 - 1)) mod 2 ^ 64 - 2 ^ (64 - 1) + b + 2 ^ (64 - 1))
    with ((a + 2 ^ (64 - 1)) mod 2 ^ 64 + b) by lia.
  rewrite Zplus_mod_idemp_l. f_equal. lia.
Qed.

Lemma to_int64_id z : - 2 ^ 63 ≤ z ≤ 2 ^ 63 - 1 → to_int64 z = z.
Proof.
  intros Hz. unfold to_int64, wrap_s. change (64 - 1) with 63.
  assert (2 ^ 64 = 2 * 2 ^ 63) by reflexivity.
  rewrite Z.mod_small; lia.
Qed.

Lemma to_int32_of_int64 z : to_int32 (to_int64 z) = to_int32 z.
Proof.
  unfold to_int32, to_int64, wrap_s. f_equal.
  change (2 ^ 32) with 4294967296. change (32 - 1) with 31. change (64 - 1) with 63.
  replace ((z + 2 ^ 63) mod 2 ^ 64 - 2 ^ 63 + 2 ^ 31)
    with ((z + 2 ^ 63) mod 2 ^ 64 + (2 ^ 31 - 2 ^ 63)) by lia.
  rewrite Z.add_mod by lia.
  rewrite (Z.mod_mod_divide (z + 2 ^ 63)) by (exists (2 ^ 32); reflexivity).
  rewrite <- Z.add_mod by lia. f_equal. lia.
Qed.

(** A 64-bit accumulation holds the exact sum modulo [2^64]. *)
Lemma accumulate_int64 (f : nat → Z) n :
  for_loop n (λ k sum, to_int64 (sum + to_int64 (f k))) 0
  = to_int64 (foldr Z.add 0 (map f (seq 0 n))).
Proof.
  induction n as [|n IH]; [reflexivity|].
  rewrite for_loop_S, seq_S, map_app, IH.
  change (map f [(0 + n)%nat]) with [f n]. rewrite foldr_add_snoc.
  rewrite to_int64_add_l, (Z.add_comm _ (to_int64 (f n))), to_int64_add_l.
  f_equal. lia.
Qed.

Lemma scalar_matmul_int32_flat N A B C (m : mem) :
  scalar_matmul_int32 A B C N m
  = for_loop (N * N) (λ k m,
      <[C +ₚ k := to_int32
          (for_loop N (λ k' sum,
             to_int64 (sum + to_int64 (load32 m (A +ₚ (k / N * N + k'))
                                       * load32 m (B +ₚ (k' * N + k mod N))))) 0)]> m) m.
Proof.
  unfold scalar_matmul_int32.
  rewrite (for_loop_flatten N N (λ i j m,
             store32 m (C +ₚ (i * N + j))
               (for_loop N (λ k sum,
                  to_int64 (sum + to_int64 (load32 m (A +ₚ (i * N + k))
                                            * load32 m (B +ₚ (k * N + j))))) 0))).
  apply for_loop_ext. intros k m' Hk. unfold store32.
  assert (HN : N ≠ 0%nat) by lia.
  pose proof (Nat.div_mod k N HN).
  replace (k / N * N + k mod N)%nat with k by lia. reflexivity.
Qed.

Lemma scalar_matmul_int32_other N A B C (m : mem) q :
  (∀ k, (k < N * N)%nat → q ≠ C +ₚ k) → scalar_matmul_int32 A B C N m q = m q.
Proof.
  intros Hq. rewrite scalar_matmul_int32_flat.
  set (body := λ (k : nat) (m : mem), <[C +ₚ k := _]> m).
  apply (store_loop_other C _ body (λ _ _, eq_refl)). exact Hq.
Qed.

Lemma scalar_matmul_int32_cell N A B C (m : mem) i j :
  disjoint_buffers A C (N * N) →
  disjoint_buffers B C (N * N) →
  (i < N)%nat → (j < N)%nat →
  load32 (scalar_matmul_int32 A B C N m) (C +ₚ (i * N + j))
  = to_int32 (dot_product_int32 N m A B i j).
Proof.
  intros HA HB Hi Hj. rewrite scalar_matmul_int32_flat.
  set (body := λ (k : nat) (m : mem), <[C +ₚ k := _]> m).
  destruct (cell_index N i j Hi Hj) as (Hd & Hm & Hlt).
  unfold load32 at 1.
  rewrite (store_loop_at C _ body (λ _ _, eq_refl)) by assumption.
  rewrite Hd, Hm, to_int32_idem.
  set (mk := for_loop (i * N + j) body m).
  assert (Hframe : ∀ q a, (a < N * N)%nat → disjoint_buffers q C (N * N) →
                          load32 mk (q +ₚ a) = load32 m (q +ₚ a)).
  { intros q a Ha Hq. apply load32_agree.
    apply (store_loop_other C _ body (λ _ _, eq_refl)).
    intros c Hc. apply Hq; lia. }
  rewrite (for_loop_ext N _
             (λ k' sum, to_int64 (sum + to_int64 (load32 m (A +ₚ (i * N + k'))
                                                 * load32 m (B +ₚ (k' * N + j)))))).
  2:{ intros k' s Hk'.
      rewrite (Hframe A), (Hframe B) by (assumption || nia). reflexivity. }
  rewrite (accumulate_int64
             (λ k', load32 m (A +ₚ (i * N + k')) * load32 m (B +ₚ (k' * N + j)))).
  apply to_int32_of_int64.
Qed.

(** [scalar_matmul_int32] leaves in [C[i*N+j]] the exact dot product of row
    [i] of [A] and column [j] of [B] converted to [int32_t] (the 64-bit sum
    wraps, which the conversion absorbs), the exact value whenever that fits;
    it writes inside [C] only.  [C] shares no cell with [A] or [B]. *)
Theorem scalar_matmul_int32_dot (N : nat) (A B C : ptr) (m : mem) :
  disjoint_buffers A C (N * N) →
  disjoint_buffers B C (N * N) →
  let m' := scalar_matmul_int32 A B C N m in
  (∀ i j, (i < N)%nat → (j < N)%nat →
     let dot := dot_product_int32 N m A B i j in
     load32 m' (C +ₚ (i * N + j)) = to_int32 dot
     ∧ (-2147483648 ≤ dot ≤ 2147483647 → load32 m' (C +ₚ (i * N + j)) = dot))
  ∧ (∀ q, ¬ in_buffer C (N * N) q → m' q = m q).
Proof.
  intros HA HB m'. subst m'. split.
  - intros i j Hi Hj dot.
    pose proof (scalar_matmul_int32_cell N A B C m i j HA HB Hi Hj) as Hcell.
    split; [exact Hcell|]. intros Hfit. rewrite Hcell. apply to_int32_id, Hfit.
  - intros q Hq. apply scalar_matmul_int32_other. apply not_in_buffer, Hq.
Qed.

(** [ara_vector_dot], the scalar fallback, is the exact dot product of the
    two vectors reduced to an [int64_t], and the exact value whenever that
    fits. *)
Theorem ara_vector_dot_exact (x y : ptr) (n : nat) (m : mem) :
  let dot := vector_dot_exact m x y n in
  ara_vector_dot x y n m = to_int64 dot
  ∧ (- 2 ^ 63 ≤ dot ≤ 2 ^ 63 - 1 → ara_vector_dot x y n m = dot).
Proof.
  intros dot. unfold ara_vector_dot.
  rewrite (accumulate_int64 (λ i, load32 m (x +ₚ i) * load32 m (y +ₚ i))).
  split; [reflexivity|]. intros Hfit. apply to_int64_id, Hfit.
Qed.

(** ** The vector SAXPY beyond the reference case *)

Lemma ara_vector_saxpy_loop_frame hw a : ∀ fuel x y n (m : mem),
  match ara_vector_saxpy_loop hw fuel a x y n m with
  | Some m' => ∀ q, (∀ k, (k < n)%nat → q ≠ y +ₚ k) → m' q = m q
  | None => True
  end.
Proof.
  induction fuel as [|fuel IH]; intros x y n m.
  - destruct n; simpl; [intros; reflexivity | exact I].
  - destruct n as [|n']; [simpl; intros; reflexivity|].
    set (n := S n') in *.
    set (vl := vsetvli_e32m1 hw n).
    assert (Hvl : (vl ≤ n)%nat) by (unfold vl, vsetvli_e32m1; lia).
    set (m1 := vse32 (pass_register hw a x y m vl) m y).
    specialize (IH (x +ₚ vl) (y +ₚ vl) (n - vl)%nat m1).
    change (ara_vector_saxpy_loop hw (S fuel) a x y n m)
      with (ara_vector_saxpy_loop hw fuel a (x +ₚ vl) (y +ₚ vl) (n - vl) m1).
    destruct (ara_vector_saxpy_loop hw fuel a (x +ₚ vl) (y +ₚ vl) (n - vl) m1)
      as [m'|]; [|exact I].
    intros q Hq. rewrite IH.
    + apply (vector_pass_other hw). intros k Hk. apply Hq. lia.
    + intros k Hk. rewrite padd_padd. apply Hq. lia.
Qed.

(** Whatever the vector lanes compute, [ara_vector_saxpy] writes inside
    [y[0..n)] only: [x], the elements of [y] from index [n] on and every
    other buffer keep their values. *)
Theorem ara_vector_saxpy_frame (hw : platform) (a : Z) (x y : ptr) (n : nat) (m : mem) :
  match ara_vector_saxpy hw a x y n m with
  | Some m' => ∀ q, ¬ in_buffer y n q → m' q = m q
  | None => True
  end.
Proof.
  unfold ara_vector_saxpy.
  pose proof (ara_vector_saxpy_loop_frame hw a n x y n m) as H.
  destruct (ara_vector_saxpy_loop hw n a x y n m) as [m'|]; [|exact I].
  intros q Hq. apply H. apply not_in_buffer, Hq.
Qed.

Lemma ara_vector_saxpy_loop_stuck hw a :
  VLMAX hw = 0%nat →
  ∀ fuel x y n (m : mem), n ≠ 0%nat → ara_vector_saxpy_loop hw fuel a x y n m = None.
Proof.
  intros H0. induction fuel as [|fuel IH]; intros x y n m Hn.
  - destruct n; [contradiction | reflexivity].
  - destruct n as [|n']; [contradiction|]. simpl.
    unfold vsetvli_e32m1. rewrite H0, Nat.min_0_r. apply IH. lia.
Qed.

(** The strip-mining loop fails to terminate exactly when there is work to
    do and the unit grants no element ([VLMAX = 0]); with [n = 0] it returns
    at once and memory is as it was. *)
Theorem ara_vector_saxpy_hangs_iff (hw : platform) (a : Z) (x y : ptr) (n : nat) (m : mem) :
  (ara_vector_saxpy hw a x y n m = None ↔ VLMAX hw = 0%nat ∧ n ≠ 0%nat)
  ∧ ara_vector_saxpy hw a x y 0 m = Some m.
Proof.
  split; [|reflexivity]. split.
  - intros Hnone.
    destruct (Nat.eq_dec (VLMAX hw) 0%nat) as [H0|Hpos].
    + split; [exact H0|]. intros ->. discriminate Hnone.
    + destruct (ara_vector_saxpy_terminates hw a x y n m) as [m' E]; [lia|].
      congruence.
  - intros [H0 Hn]. apply ara_vector_saxpy_loop_stuck; assumption.
Qed.

Lemma in_buffer_dec p n q : in_buffer p n q ∨ ¬ in_buffer p n q.
Proof.
  destruct (decide (q.1 = p.1 ∧ (p.2 ≤ q.2 < p.2 + n)%nat)) as [[Hb Ho]|Hno].
  - left. exists (q.2 - p.2)%nat. split; [lia|].
    destruct p as [pb po], q as [qb qo]. simpl in *. subst. unfold padd. simpl.
    f_equal. lia.
  - right. intros (k & Hk & ->). apply Hno. unfold padd. simpl. split; [reflexivity | lia].
Qed.

Lemma disjoint_forward_safe x y n : disjoint_buffers x y n → forward_safe x y n.
Proof. intros Hd j k Hjk Hk. apply Hd; lia. Qed.

Lemma scalar_saxpy_at_forward a x y n (m : mem) k :
  forward_safe x y n → (k < n)%nat →
  scalar_saxpy a x y n m (y +ₚ k)
  = to_int32 (a * load32 m (x +ₚ k) + load32 m (y +ₚ k)).
Proof.
  intros Hf Hk. unfold scalar_saxpy.
  rewrite (store_loop_at y
             (λ i m, to_int32 (a * load32 m (x +ₚ i) + load32 m (y +ₚ i))))
    by (intros; apply scalar_saxpy_body || assumption).
  fold (scalar_saxpy a x y k m).
  rewrite (load32_agree (scalar_saxpy a x y k m) m (x +ₚ k)),
          (load32_agree (scalar_saxpy a x y k m) m (y +ₚ k)); [reflexivity| |].
  - apply scalar_saxpy_other. intros i Hi E. apply padd_inj in E. lia.
  - apply scalar_saxpy_other. intros i Hi. apply Hf; lia.
Qed.

Lemma ara_vector_saxpy_loop_forward hw a :
  rvv_conformant hw →
  ∀ fuel x y n (m : mem),
    (n ≤ fuel)%nat → forward_safe x y n →
    ∃ m', ara_vector_saxpy_loop hw fuel a x y n m = Some m'
          ∧ (∀ k, (k < n)%nat →
               m' (y +ₚ k) = to_int32 (a * load32 m (x +ₚ k) + load32 m (y +ₚ k)))
          ∧ (∀ q, (∀ k, (k < n)%nat → q ≠ y +ₚ k) → m' q = m q).
Proof.
  intros Hc. induction fuel as [|fuel IH]; intros x y n m Hfuel Hf.
  - assert (n = 0%nat) as -> by lia. exists m. simpl.
    split; [reflexivity|]. split; [intros; lia | intros; reflexivity].
  - destruct n as [|n'].
    { exists m. simpl. split; [reflexivity|]. split; [intros; lia | intros; reflexivity]. }
    set (n := S n') in *.
    set (vl := vsetvli_e32m1 hw n).
    assert (Hvl : (0 < vl ≤ n)%nat).
    { unfold vl, vsetvli_e32m1. pose proof (conf_vlmax hw Hc). lia. }
    set (m1 := vse32 (pass_register hw a x y m vl) m y).
    destruct (IH (x +ₚ vl) (y +ₚ vl) (n - vl)%nat m1) as (m' & Hrun & Hat & Hother).
    { lia. }
    { intros j k Hjk Hk. rewrite !padd_padd. apply Hf; lia. }
    exists m'. split; [exact Hrun|]. split.
    + intros k Hk. destruct (decide (k < vl)%nat) as [Hlt|Hge].
      * rewrite Hother by (intros k' Hk'; rewrite padd_padd; intros E;
                           apply padd_inj in E; lia).
        apply (vector_pass_at hw Hc); assumption.
      * replace k with (vl + (k - vl))%nat by lia. rewrite <- !padd_padd.
        rewrite Hat by lia.
        rewrite (load32_agree m1 m (x +ₚ vl +ₚ (k - vl))),
                (load32_agree m1 m (y +ₚ vl +ₚ (k - vl))); [reflexivity| |].
        -- apply (vector_pass_other hw). intros j Hj. rewrite padd_padd.
           intros E. apply padd_inj in E. lia.
        -- apply (vector_pass_other hw). intros j Hj. rewrite padd_padd.
           apply Hf; lia.
    + intros q Hq. rewrite Hother.
      * apply (vector_pass_other hw). intros k Hk. apply Hq. lia.
      * intros k Hk. rewrite padd_padd. apply Hq. lia.
Qed.

(** The two SAXPY kernels also agree when [x] and [y] overlap, as long as no
    element of [x] is read after a lower-indexed store to [y] hit it: the
    vector kernel then leaves all of memory exactly as the scalar loop does.
    Run in place ([x = y]) both leave [(alpha + 1) * y[i]]. *)
Theorem saxpy_kernels_agree_on_forward_overlap (hw : platform) (a : Z)
    (x y : ptr) (n : nat) (m : mem) :
  rvv_conformant hw →
  forward_safe x y n →
  ∃ m', ara_vector_saxpy hw a x y n m = Some m'
        ∧ (∀ q, m' q = scalar_saxpy a x y n m q)
        ∧ (x = y → ∀ k, (k < n)%nat →
             load32 m' (y +ₚ k) = to_int32 ((a + 1) * load32 m (y +ₚ k))).
Proof.
  intros Hc Hf.
  destruct (ara_vector_saxpy_loop_forward hw a Hc n x y n m (le_n n) Hf)
    as (m' & Hrun & Hat & Hother).
  exists m'. split; [exact Hrun|]. split.
  - intros q. destruct (in_buffer_dec y n q) as [(k & Hk & ->)|Hout].
    + rewrite Hat, scalar_saxpy_at_forward by assumption. reflexivity.
    + rewrite Hother by (apply not_in_buffer, Hout).
      symmetry. apply scalar_saxpy_other. apply not_in_buffer, Hout.
  - intros -> k Hk. unfold load32 at 1. rewrite Hat by assumption.
    rewrite to_int32_idem. f_equal. lia.
Qed.

(** ** Enabling the vector unit *)

(** [enable_vector_extension] sets bit 9 of [mstatus] (VS = Initial) and no
    other bit, keeps a 64-bit value a 64-bit value, touches nothing else,
    and doing it again changes nothing. *)
Theorem enable_vector_extension_sets_vs (s : state) :
  ∃ s', enable_vector_extension s = Ok tt s'
        ∧ Z.testbit (st_mstatus s') 9 = true
        ∧ (∀ i, i ≠ 9 → Z.testbit (st_mstatus s') i = Z.testbit (st_mstatus s) i)
        ∧ (0 ≤ st_mstatus s < 2 ^ 64 → 0 ≤ st_mstatus s' < 2 ^ 64)
        ∧ enable_vector_extension s' = Ok tt s'
        ∧ st_mem s' = st_mem s ∧ st_console s' = st_console s
        ∧ st_accel s' = st_accel s ∧ st_csr_reads s' = st_csr_reads s.
Proof.
  destruct s as [m0 con acc reads ms]. unfold enable_vector_extension.
  cbn [st_mstatus st_mem st_console st_accel st_csr_reads].
  exists (State m0 con acc reads (Z.lor ms (Z.shiftl 1 9))).
  split; [reflexivity|].
  cbn [st_mstatus st_mem st_console st_accel st_csr_reads].
  change (Z.shiftl 1 9) with (2 ^ 9).
  split; [|split; [|split; [|split]]].
  - rewrite Z.lor_spec, Z.pow2_bits_true by lia. apply orb_true_r.
  - intros i Hi. rewrite Z.lor_spec, Z.pow2_bits_false by lia. apply orb_false_r.
  - change (2 ^ 9) with 512. intros [Hlo Hhi].
    assert (H512 : 0 ≤ 512) by lia.
    pose proof (proj2 (Z.lor_nonneg ms 512) (conj Hlo H512)) as Hnn.
    split; [exact Hnn|].
    assert (Hne : Z.lor ms 512 ≠ 0).
    { intros E. apply Z.lor_eq_0_iff in E. destruct E as [_ E]. discriminate E. }
    apply Z.log2_lt_pow2; [lia|].
    rewrite Z.log2_lor by assumption.
    apply Z.max_lub_lt; [|reflexivity].
    destruct (Z.eq_dec ms 0) as [->|Hnz]; [reflexivity|].
    apply Z.log2_lt_pow2; [lia | exact Hhi].
  - rewrite <- Z.lor_assoc, Z.lor_diag. reflexivity.
  - repeat split.
Qed.

(** ** Verification of the vector result *)

Lemma ara_differs_decide (m : mem) i :
  bool_decide (load32 m (base vec_y +ₚ i) ≠ load32 m (base vec_ref +ₚ i))
  = ara_differs m i.
Proof.
  unfold ara_differs.
  destruct (Z.eqb_spec (load32 m (base vec_y +ₚ i)) (load32 m (base vec_ref +ₚ i)));
    [apply bool_decide_eq_false_2; tauto | apply bool_decide_eq_true_2; assumption].
Qed.

Lemma ara_verify_scan l : ∀ (budget : nat) (s : state),
  (budget ≤ 5)%nat →
  foldl (λ acc i, if acc.1 <? 5 then ScalarCompare.ara_verify_elem i acc else acc)
    (5 - Z.of_nat budget, s) l
  = let mis := filter (λ i, ara_differs (st_mem s) i = true) l in
    (5 - Z.of_nat budget + Z.of_nat (Nat.min budget (length mis)),
     emit_lines (map (ara_mismatch_line (st_mem s)) (take budget mis)) s).
Proof.
  induction l as [|i l IH]; intros budget s Hb.
  - simpl. rewrite filter_nil, Nat.min_0_r, take_nil. simpl.
    rewrite emit_lines_nil. f_equal. lia.
  - destruct budget as [|b].
    + rewrite (guarded_foldl_left (λ acc : Z * state, acc.1 <? 5)) by reflexivity.
      simpl. rewrite emit_lines_nil. reflexivity.
    + cbn [foldl fst]. replace (5 - Z.of_nat (S b) <? 5) with true
        by (symmetry; apply Z.ltb_lt; lia).
      unfold ScalarCompare.ara_verify_elem at 2. rewrite ara_differs_decide.
      destruct (ara_differs (st_mem s) i) eqn:Hd.
      * rewrite filter_cons_True by exact Hd.
        replace (to_int32 (5 - Z.of_nat (S b) + 1)) with (5 - Z.of_nat b)
          by (rewrite to_int32_id; lia).
        rewrite IH by lia. cbn [st_mem emit]. cbv zeta.
        cbn [take map length]. fold (ara_mismatch_line (st_mem s) i).
        unfold ara_mismatch_line at 2. rewrite emit_lines_cons.
        f_equal. lia.
      * rewrite filter_cons_False by (rewrite Hd; discriminate).
        apply (IH (S b) s Hb).
Qed.

Lemma ara_verify_run (s : state) :
  ScalarCompare.ara_verify s
  = Ok (Z.of_nat (Nat.min 5 (length (ara_differing VEC_LEN (st_mem s)))))
       (emit_lines (map (ara_mismatch_line (st_mem s))
                        (take 5 (ara_differing VEC_LEN (st_mem s)))) s).
Proof.
  unfold ScalarCompare.ara_verify, for_loop_while, ara_differing.
  change (0, s) with (5 - Z.of_nat 5, s).
  rewrite (ara_verify_scan (seq 0 VEC_LEN) 5 s (le_n 5)). reflexivity.
Qed.

(** The vector verification stops at the fifth differing element too: its
    count is the smaller of 5 and the number of elements of [vec_y] that
    differ from [vec_ref], one line is printed per counted element, in index
    order, and nothing else changes. *)
Theorem ara_verify_capped (s : state) :
  let differing := ara_differing VEC_LEN (st_mem s) in
  ScalarCompare.ara_verify s
  = Ok (Z.of_nat (Nat.min 5 (length differing)))
       (emit_lines (map (ara_mismatch_line (st_mem s)) (take 5 differing)) s)
  ∧ (Z.of_nat (Nat.min 5 (length differing)) = 0 ↔ differing = []).
Proof.
  intros differing. split; [apply ara_verify_run|].
  destruct differing as [|i l]; simpl; [tauto|]. split; [lia | discriminate].
Qed.

(** ** What the phases leave alone *)

Ltac exec_ara_verify :=
  match goal with
  | |- context [ScalarCompare.ara_verify ?s] => rewrite (ara_verify_run s)
  end.

Ltac exec_ara_any :=
  match goal with
  | |- context [ara_vector_saxpy ?h ?a ?x ?y ?n ?m] =>
      destruct (ara_vector_saxpy h a x y n m)
  end.

Ltac exec_all :=
  exec; repeat first [exec_verify; exec | exec_ara_verify; exec
                     | exec_ara_any; exec | exec_branch; exec].

(** The scalar and the vector phases issue no accelerator operation, and
    only [test_ara_performance] writes [mstatus] (it sets VS, also when the
    vector loop then hangs); this holds on every path, faulting ones
    included. *)
Theorem phases_side_effects (DIM : nat) (hw : platform) (s : state) :
  (st_accel (final_state (Compare.test_scalar_matmul hw s)) = st_accel s
   ∧ st_accel (final_state (ScalarCompare.test_scalar_performance hw s)) = st_accel s
   ∧ st_accel (final_state (ScalarCompare.test_ara_performance hw s)) = st_accel s)
  ∧ (st_mstatus (final_state (ScalarCompare.test_ara_performance hw s))
     = Z.lor (st_mstatus s) (Z.shiftl 1 9))
  ∧ (st_mstatus (final_state (Compare.test_scalar_matmul hw s)) = st_mstatus s
     ∧ st_mstatus (final_state (Compare.test_gemmini_matmul DIM hw s)) = st_mstatus s
     ∧ st_mstatus (final_state (Compare.test_performance_comparison DIM hw s))
       = st_mstatus s
     ∧ st_mstatus (final_state (ScalarCompare.test_scalar_performance hw s))
       = st_mstatus s
     ∧ st_mstatus (final_state (ScalarCompare.test_gemmini_performance DIM hw s))
       = st_mstatus s
     ∧ st_mstatus (final_state (ScalarCompare.test_comparison DIM hw s))
       = st_mstatus s).
Proof.
  destruct s as [m0 con acc reads ms].
  split; [|split].
  - split; [|split].
    + unfold Compare.test_scalar_matmul. exec_all; reflexivity.
    + unfold ScalarCompare.test_scalar_performance. exec_all; reflexivity.
    + unfold ScalarCompare.test_ara_performance. exec_all; reflexivity.
  - unfold ScalarCompare.test_ara_performance. exec_all; reflexivity.
  - split; [|split; [|split; [|split; [|split]]]].
    + unfold Compare.test_scalar_matmul. exec_all; reflexivity.
    + unfold Compare.test_gemmini_matmul. exec_all; reflexivity.
    + unfold Compare.test_performance_comparison. exec_all; reflexivity.
    + unfold ScalarCompare.test_scalar_performance. exec_all; reflexivity.
    + unfold ScalarCompare.test_gemmini_performance. exec_all; reflexivity.
    + unfold ScalarCompare.test_comparison. exec_all; reflexivity.
Qed.

(** ** The vector phase on conformant hardware *)

Lemma other_block (p q : ptr) k : q.1 ≠ p.1 → q ≠ p +ₚ k.
Proof. intros Hne E. apply Hne. rewrite E. reflexivity. Qed.

Lemma init_vector_int32_at vec len seed (m : mem) i :
  (i < len)%nat →
  init_vector_int32 vec len seed m (vec +ₚ i) = to_int32 (init_value_vec seed i).
Proof.
  intros Hi. unfold init_vector_int32.
  rewrite (store_loop_at vec (λ k _, to_int32 (init_value_vec seed k)))
    by (reflexivity || assumption).
  reflexivity.
Qed.

Lemma init_vector_int32_other vec len seed (m : mem) q :
  q.1 ≠ vec.1 → init_vector_int32 vec len seed m q = m q.
Proof.
  intros Hq. unfold init_vector_int32.
  apply (store_loop_other vec (λ k _, to_int32 (init_value_vec seed k)));
    [reflexivity | intros; apply other_block, Hq].
Qed.

Lemma to_int32_load32 (m : mem) p : to_int32 (load32 m p) = load32 m p.
Proof. apply to_int32_idem. Qed.

(** The copy loop [vec_ref[i] = vec_y[i]]. *)
Lemma copy_loop_at (src dst : ptr) n (m : mem) i :
  src.1 ≠ dst.1 → (i < n)%nat →
  for_loop n (λ i m, store32 m (dst +ₚ i) (load32 m (src +ₚ i))) m (dst +ₚ i)
  = load32 m (src +ₚ i).
Proof.
  intros Hne Hi.
  rewrite (store_loop_at dst (λ k m, to_int32 (load32 m (src +ₚ k))))
    by (reflexivity || assumption).
  rewrite to_int32_load32. apply load32_agree.
  apply (store_loop_other dst (λ k m, to_int32 (load32 m (src +ₚ k))));
    [reflexivity | intros; apply other_block, Hne].
Qed.

Lemma copy_loop_other (src dst : ptr) n (m : mem) q :
  q.1 ≠ dst.1 →
  for_loop n (λ i m, store32 m (dst +ₚ i) (load32 m (src +ₚ i))) m q = m q.
Proof.
  intros Hq.
  apply (store_loop_other dst (λ k m, to_int32 (load32 m (src +ₚ k))));
    [reflexivity | intros; apply other_block, Hq].
Qed.

Lemma ara_differing_nil n (m : mem) :
  (∀ i, (i < n)%nat → load32 m (base vec_y +ₚ i) = load32 m (base vec_ref +ₚ i)) →
  ara_differing n m = [].
Proof.
  intros Hall. unfold ara_differing.
  assert (H : ∀ l, (∀ i, In i l → (i < n)%nat) →
                filter (λ i, ara_differs m i = true) l = []).
  { induction l as [|i l IH]; intros Hl; [apply filter_nil|].
    rewrite filter_cons_False.
    - apply IH. intros j Hj. apply Hl. right. exact Hj.
    - unfold ara_differs. rewrite (Hall i) by (apply Hl; left; reflexivity).
      rewrite Z.eqb_refl. discriminate. }
  apply H. intros i Hi. apply in_seq in Hi. lia.
Qed.

(** The memory in which [test_ara_performance] verifies, for any length and
    seeds: generate, copy, scalar reference, regenerate, vector kernel. *)
Lemma ara_reference_run hw (n : nat) (seed_x seed_y a : Z) (m0 : mem) :
  rvv_conformant hw →
  ∃ m', ara_vector_saxpy hw a (base vec_x) (base vec_y) n
          (init_vector_int32 (base vec_y) n seed_y
             (scalar_saxpy a (base vec_x) (base vec_ref) n
                (for_loop n (λ i m, store32 m (base vec_ref +ₚ i)
                                      (load32 m (base vec_y +ₚ i)))
                   (init_vector_int32 (base vec_y) n seed_y
                      (init_vector_int32 (base vec_x) n seed_x m0))))) = Some m'
        ∧ ∀ i, (i < n)%nat →
            load32 m' (base vec_y +ₚ i) = load32 m' (base vec_ref +ₚ i).
Proof.
  intros Hc.
  set (M2 := init_vector_int32 (base vec_y) n seed_y
               (init_vector_int32 (base vec_x) n seed_x m0)).
  set (M3 := for_loop n _ M2).
  set (M4 := scalar_saxpy a (base vec_x) (base vec_ref) n M3).
  set (M5 := init_vector_int32 (base vec_y) n seed_y M4).
  assert (Hxy : disjoint_buffers (base vec_x) (base vec_y) n)
    by (apply globals_disjoint; discriminate).
  assert (Hxr : disjoint_buffers (base vec_x) (base vec_ref) n)
    by (apply globals_disjoint; discriminate).
  destruct (ara_vector_saxpy_loop_spec hw a Hc n (base vec_x) (base vec_y) n M5
              (le_n n) Hxy) as (m' & Hrun & Hat & Hother).
  exists m'. split; [exact Hrun|]. intros i Hi.
  unfold load32 at 1 2. rewrite Hat by assumption.
  rewrite (Hother (base vec_ref +ₚ i)) by (intros; apply other_block; discriminate).
  unfold M5 at 3. rewrite init_vector_int32_other by discriminate.
  unfold M4. rewrite scalar_saxpy_at by assumption.
  rewrite !to_int32_idem. f_equal. f_equal.
  - f_equal. apply load32_agree. unfold M5.
    rewrite init_vector_int32_other by discriminate.
    fold M4. unfold M4. apply scalar_saxpy_other.
    intros; apply other_block; discriminate.
  - unfold load32. f_equal. unfold M5. rewrite init_vector_int32_at by assumption.
    unfold M3. rewrite copy_loop_at by (discriminate || assumption).
    unfold load32, M2. rewrite init_vector_int32_at by assumption.
    rewrite to_int32_idem. reflexivity.
Qed.

Lemma test_ara_performance_conformant (hw : platform) (s : state) :
  rvv_conformant hw →
  ∃ s' pre, ScalarCompare.test_ara_performance hw s = Ok 0 s'
            ∧ st_console s'
              = pre ++ [("  Verification: PASSED\n"%string, []); ("\n"%string, [])].
Proof.
  intros Hc. destruct s as [m0 con acc reads ms].
  unfold ScalarCompare.test_ara_performance. exec.
  destruct (ara_reference_run hw VEC_LEN 0xABCD 0x1234 3 m0 Hc) as (m' & Hrun & Heq).
  change 43981 with 0xABCD. change 4660 with 0x1234.
  rewrite Hrun. exec. exec_ara_verify. exec.
  rewrite (ara_differing_nil VEC_LEN m' Heq). exec.
  eexists. eexists. split; [reflexivity|]. cbn [take map]. rewrite app_nil_r.
  rewrite <- app_assoc. reflexivity.
Qed.

(** On a conformant vector unit [test_ara_performance] always passes: from
    any state it returns 0 and ends its report with the PASSED line. *)
Theorem test_ara_performance_passes (hw : platform) (s : state) :
  rvv_conformant hw →
  exit_code (ScalarCompare.test_ara_performance hw s) = Some 0
  ∧ ∃ pre, st_console (final_state (ScalarCompare.test_ara_performance hw s))
           = pre ++ [("  Verification: PASSED\n"%string, []); ("\n"%string, [])].
Proof.
  intros Hc. destruct (test_ara_performance_conformant hw s Hc) as (s' & pre & -> & Hcon).
  split; [reflexivity|]. exists pre. exact Hcon.
Qed.

Lemma test_comparison_faults (DIM : nat) (hw : platform) (s : state) :
  (0 < VLMAX hw)%nat →
  match ScalarCompare.test_comparison DIM hw s with
  | Ok r _ => r = 0
  | Fault f _ => f = DivideByZero
  end.
Proof.
  intros Hvl. destruct s as [m0 con acc reads ms].
  unfold ScalarCompare.test_comparison. exec. exec_ara Hvl. exec.
  repeat (exec_branch; [reflexivity|]). reflexivity.
Qed.

(** ** Reports of the matrix phases *)

(** The ops/cycle lines of [test_scalar_matmul] and [test_gemmini_matmul]
    divide by the measured cycle delta without a guard as well: a non-zero
    delta prints the quotient, a zero delta ends the phase in the division. *)
Theorem ops_per_cycle_division (DIM : nat) (hw : platform) (s : state) :
  let cycles a b := to_u64 (to_u64 (mcycle_at hw b) - to_u64 (mcycle_at hw a)) in
  let k := st_csr_reads s in
  (let r := Compare.test_scalar_matmul hw s in
   if cycles k (2 + k)%nat =? 0
   then is_fault DivideByZero r = true
   else exit_code r = Some 0
        ∧ In ("  Ops/cycle x1000: %llu\n"%string, [8192000 / cycles k (2 + k)%nat])
             (st_console (final_state r)))
  ∧ (let r := Compare.test_gemmini_matmul DIM hw s in
     if cycles (2 + k)%nat (4 + k)%nat =? 0
     then is_fault DivideByZero r = true
     else exit_code r = Some 0
          ∧ In ("  Ops/cycle x1000: %llu\n"%string,
                [to_u64 (2 * Z.of_nat DIM * Z.of_nat DIM * Z.of_nat DIM * 1000)
                 / cycles (2 + k)%nat (4 + k)%nat])
               (st_console (final_state r))).
Proof.
  destruct s as [m0 con acc reads ms]. split.
  - unfold Compare.test_scalar_matmul. exec. cbn [Nat.add].
    change (to_u64 (2 * Z.of_nat TEST_DIM * Z.of_nat TEST_DIM * Z.of_nat TEST_DIM * 1000))
      with 8192000.
    exec_branch; [reflexivity|]. split; [reflexivity | printed].
  - unfold Compare.test_gemmini_matmul. exec. cbn [Nat.add].
    match goal with
    | |- context [if Z.eqb ?c 0 then _ else _] => destruct (Z.eqb c 0)
    end; [reflexivity|].
    exec_verify. exec. exec_branch; exec; (split; [reflexivity | printed]).
Qed.

Lemma cells_spec DIM (c : nat * nat) :
  In c (cells DIM) ↔ (c.1 < DIM)%nat ∧ (c.2 < DIM)%nat.
Proof.
  unfold cells. rewrite in_flat_map. split.
  - intros (i & Hi & Hc). apply in_map_iff in Hc. destruct Hc as (j & <- & Hj).
    apply in_seq in Hi. apply in_seq in Hj. simpl. lia.
  - intros [H1 H2]. exists c.1. split; [apply in_seq; lia|].
    apply in_map_iff. exists c.2. split; [destruct c; reflexivity | apply in_seq; lia].
Qed.

Lemma mismatches_nil_iff DIM (m : mem) :
  mismatches DIM m = [] ↔ within_tolerance DIM m.
Proof.
  unfold mismatches, within_tolerance. split.
  - intros Hnil i j Hi Hj.
    destruct (Z.leb_spec (Z.abs (load8 m (idx2 DIM (base gemmini_C) i j)
                                 - load8 m (idx2 DIM (base gemmini_ref) i j))) 1)
      as [Hle|Hgt]; [exact Hle|].
    exfalso.
    apply (filter_nil_not_elem_of (λ c, is_mismatch DIM m c = true) _ (i, j) Hnil).
    + unfold is_mismatch. simpl. apply Z.ltb_lt. exact Hgt.
    + apply list_elem_of_In, cells_spec. simpl. split; assumption.
  - intros Hall.
    destruct (filter (λ c, is_mismatch DIM m c = true) (cells DIM)) as [|c l] eqn:E;
      [reflexivity|].
    exfalso.
    assert (Hin : c ∈ filter (λ c, is_mismatch DIM m c = true) (cells DIM))
      by (rewrite E; left).
    apply list_elem_of_filter in Hin. destruct Hin as [Hmis Hc].
    apply list_elem_of_In, cells_spec in Hc. destruct Hc as [H1 H2].
    unfold is_mismatch in Hmis. apply Z.ltb_lt in Hmis.
    specialize (Hall c.1 c.2 H1 H2). lia.
Qed.

Lemma mismatch_line_fmt DIM fmt (m : mem) l line :
  In line (map (mismatch_line DIM fmt m) l) → line.1 = fmt.
Proof. intros H. apply in_map_iff in H. destruct H as (c & <- & _). reflexivity. Qed.

Ltac not_printed :=
  rewrite ?in_app_iff; cbn [In];
  intuition (try discriminate);
  match goal with
  | H : In _ (map (mismatch_line _ _ _) _) |- _ =>
      apply mismatch_line_fmt in H; discriminate H
  end.

(** Both Gemmini tests print their pass line exactly when every cell of the
    result is within 1 of the reference; [test_gemmini_matmul] prints its
    warning exactly otherwise.  (The memory after the phase is the memory
    that was verified.) *)
Theorem gemmini_verdict (DIM : nat) (hw : platform) (s : state) :
  (match Compare.test_gemmini_matmul DIM hw s with
   | Ok _ s' =>
       ∃ lines, st_console s' = st_console s ++ lines
                ∧ (In ("Gemmini results match reference\n"%string, []) lines
                   ↔ within_tolerance DIM (st_mem s'))
                ∧ (In ("WARNING: Some mismatches found (may be due to saturation)\n"%string,
                       []) lines
                   ↔ ¬ within_tolerance DIM (st_mem s'))
   | Fault _ _ => True
   end)
  ∧ ∃ s' lines,
      ScalarCompare.test_gemmini_performance DIM hw s = Ok 0 s'
      ∧ st_console s' = st_console s ++ lines
      ∧ (In ("  Verification: PASSED\n"%string, []) lines
         ↔ within_tolerance DIM (st_mem s')).
Proof.
  destruct s as [m0 con acc reads ms]. split.
  - unfold Compare.test_gemmini_matmul. exec.
    match goal with
    | |- context [if Z.eqb ?c 0 then _ else _] => destruct (Z.eqb c 0)
    end; [exact I|].
    exec_verify. exec.
    match goal with
    | |- context [mismatches DIM ?m] =>
        let E := fresh in remember m as mv eqn:E; clear E;
        pose proof (mismatches_nil_iff DIM mv) as Htol;
        destruct (mismatches DIM mv) as [|c l]
    end.
    + change (Z.of_nat (Nat.min 5 (length (@nil (nat * nat)))) =? 0) with true.
      exec. rewrite <- !app_assoc. eexists. split; [reflexivity|].
      assert (Hin : within_tolerance DIM _) by (apply Htol; reflexivity).
      cbn [app take map]. split; split; intros H.
      * exact Hin.
      * cbn [In]. tauto.
      * exfalso. revert H. cbn [In]. intuition discriminate.
      * contradiction.
    + assert (Hout : ¬ within_tolerance DIM _)
        by (intros H; apply Htol in H; discriminate H).
      destruct (Z.eqb_spec (Z.of_nat (Nat.min 5 (length (c :: l)))) 0) as [E|_];
        [simpl in E; lia|].
      exec. rewrite <- !app_assoc. eexists. split; [reflexivity|].
      split; split; intros H.
      * exfalso. revert H. not_printed.
      * contradiction.
      * exact Hout.
      * rewrite !in_app_iff. cbn [In]. tauto.
  - unfold ScalarCompare.test_gemmini_performance. exec. exec_verify. exec.
    match goal with
    | |- context [mismatches DIM ?m] =>
        let E := fresh in remember m as mv eqn:E; clear E;
        pose proof (mismatches_nil_iff DIM mv) as Htol;
        destruct (mismatches DIM mv) as [|c l]
    end.
    + change (Z.of_nat (Nat.min 5 (length (@nil (nat * nat)))) =? 0) with true.
      exec. rewrite <- !app_assoc. eexists. eexists. split; [reflexivity|].
      split; [reflexivity|].
      split; intros H; [apply Htol; reflexivity | cbn [app take map In]; tauto].
    + assert (Hout : ¬ within_tolerance DIM _)
        by (intros H; apply Htol in H; discriminate H).
      destruct (Z.eqb_spec (Z.of_nat (Nat.min 5 (length (c :: l)))) 0) as [E|_];
        [simpl in E; lia|].
      exec. rewrite <- !app_assoc. eexists. eexists. split; [reflexivity|].
      split; [reflexivity|].
      split; intros H; [exfalso; revert H; not_printed | contradiction].
Qed.

(** ** The benchmark inputs never overflow *)

Lemma sum_bound (f : nat → Z) (b : Z) (l : list nat) :
  (∀ k, In k l → - b ≤ f k ≤ b) →
  - (Z.of_nat (length l) * b) ≤ foldr Z.add 0 (map f l) ≤ Z.of_nat (length l) * b.
Proof.
  induction l as [|k l IH]; intros Hf; [simpl; lia|].
  cbn [map foldr length]. rewrite Nat2Z.inj_succ.
  pose proof (Hf k (or_introl eq_refl)).
  assert (- (Z.of_nat (length l) * b) ≤ foldr Z.add 0 (map f l) ≤ Z.of_nat (length l) * b)
    by (apply IH; intros; apply Hf; right; assumption).
  lia.
Qed.

Lemma init_matrix_int32_load mat size seed (m : mem) i :
  (i < size)%nat →
  load32 (init_matrix_int32 mat size seed m) (mat +ₚ i) = (seed + Z.of_nat i) mod 64 - 32.
Proof.
  intros Hi. unfold load32, init_matrix_int32.
  rewrite (store_loop_at mat (λ k _, to_int32 (init_value_int32 seed k)))
    by (reflexivity || assumption).
  rewrite to_int32_idem. apply init_value_int32_formula.
Qed.

Lemma init_matrix_int32_other mat size seed (m : mem) q :
  q.1 ≠ mat.1 → init_matrix_int32 mat size seed m q = m q.
Proof.
  intros Hq. unfold init_matrix_int32.
  apply (store_loop_other mat (λ k _, to_int32 (init_value_int32 seed k)));
    [reflexivity | intros; apply other_block, Hq].
Qed.

Lemma blocks_disjoint (p q : ptr) n : p.1 ≠ q.1 → disjoint_buffers p q n.
Proof. intros Hne i j _ _ E. apply Hne. exact (f_equal fst E). Qed.

(** On matrices filled by [init_matrix_int32] the scalar [int32_t] multiply
    is exact: with entries in [-32, 31] and [N * 1024] within an [int32_t],
    neither the 64-bit sum nor the final conversion loses anything. *)
Theorem generated_matmul_int32_exact (N : nat) (seed_A seed_B : Z)
    (A B C : ptr) (m : mem) (i j : nat) :
  A.1 ≠ B.1 → A.1 ≠ C.1 → B.1 ≠ C.1 →
  Z.of_nat N * 1024 ≤ 2147483647 →
  (i < N)%nat → (j < N)%nat →
  let m0 := init_matrix_int32 B (N * N) seed_B (init_matrix_int32 A (N * N) seed_A m) in
  load32 (scalar_matmul_int32 A B C N m0) (C +ₚ (i * N + j))
  = foldr Z.add 0
      (map (λ k, ((seed_A + Z.of_nat (i * N + k)) mod 64 - 32)
                 * ((seed_B + Z.of_nat (k * N + j)) mod 64 - 32)) (seq 0 N)).
Proof.
  intros HAB HAC HBC Hfit Hi Hj m0.
  rewrite (scalar_matmul_int32_cell N A B C m0 i j)
    by (apply blocks_disjoint || assumption; assumption).
  unfold dot_product_int32.
  rewrite (map_ext_in _
             (λ k, ((seed_A + Z.of_nat (i * N + k)) mod 64 - 32)
                   * ((seed_B + Z.of_nat (k * N + j)) mod 64 - 32))).
  - apply to_int32_id.
    pose proof (sum_bound
                  (λ k, ((seed_A + Z.of_nat (i * N + k)) mod 64 - 32)
                        * ((seed_B + Z.of_nat (k * N + j)) mod 64 - 32))
                  1024 (seq 0 N)) as Hb.
    rewrite length_seq in Hb.
    assert (Hall : ∀ k, In k (seq 0 N) →
              -1024 ≤ ((seed_A + Z.of_nat (i * N + k)) mod 64 - 32)
                      * ((seed_B + Z.of_nat (k * N + j)) mod 64 - 32) ≤ 1024).
    { intros k _.
      pose proof (Z.mod_pos_bound (seed_A + Z.of_nat (i * N + k)) 64).
      pose proof (Z.mod_pos_bound (seed_B + Z.of_nat (k * N + j)) 64). nia. }
    specialize (Hb Hall). lia.
  - intros k Hk. apply in_seq in Hk. f_equal.
    + unfold m0. rewrite (load32_agree _ (init_matrix_int32 A (N * N) seed_A m))
        by (apply init_matrix_int32_other; exact HAB).
      apply init_matrix_int32_load. nia.
    + unfold m0. apply init_matrix_int32_load. nia.
Qed.

Lemma init_vector_int32_load vec len seed (m : mem) i :
  0 ≤ seed < 2 ^ 32 → Z.of_nat len ≤ 2 ^ 62 → (i < len)%nat →
  load32 (init_vector_int32 vec len seed m) (vec +ₚ i) = (seed + Z.of_nat i) mod 100 - 50.
Proof.
  intros Hs Hlen Hi. unfold load32. rewrite init_vector_int32_at by assumption.
  rewrite to_int32_idem. apply init_value_vec_formula; [lia|].
  assert (2 ^ 62 + 2 ^ 32 < 2 ^ 64) by reflexivity. lia.
Qed.

(** On vectors filled by [init_vector_int32] the scalar SAXPY is exact for
    every [alpha] with [50 * |alpha| + 50] within an [int32_t]: element [i]
    of [y] ends as [alpha * x_i + y_i] on the generated values, without
    wrap-around. *)
Theorem generated_saxpy_exact (a seed_x seed_y : Z) (x y : ptr) (n : nat)
    (m : mem) (i : nat) :
  x.1 ≠ y.1 →
  0 ≤ seed_x < 2 ^ 32 → 0 ≤ seed_y < 2 ^ 32 → Z.of_nat n ≤ 2 ^ 62 →
  50 * Z.abs a + 50 ≤ 2147483647 →
  (i < n)%nat →
  let m0 := init_vector_int32 y n seed_y (init_vector_int32 x n seed_x m) in
  load32 (scalar_saxpy a x y n m0) (y +ₚ i)
  = a * ((seed_x + Z.of_nat i) mod 100 - 50) + ((seed_y + Z.of_nat i) mod 100 - 50).
Proof.
  intros Hxy Hsx Hsy Hn Ha Hi m0.
  unfold load32 at 1.
  rewrite scalar_saxpy_at by (apply blocks_disjoint || assumption; assumption).
  rewrite to_int32_idem.
  assert (Hx : load32 m0 (x +ₚ i) = (seed_x + Z.of_nat i) mod 100 - 50).
  { unfold m0. rewrite (load32_agree _ (init_vector_int32 x n seed_x m))
      by (apply init_vector_int32_other; exact Hxy).
    apply init_vector_int32_load; assumption. }
  assert (Hy : load32 m0 (y +ₚ i) = (seed_y + Z.of_nat i) mod 100 - 50)
    by (apply init_vector_int32_load; assumption).
  rewrite Hx, Hy. apply to_int32_id.
  pose proof (Z.mod_pos_bound (seed_x + Z.of_nat i) 100).
  pose proof (Z.mod_pos_bound (seed_y + Z.of_nat i) 100). nia.
Qed.

(** ** The further theorems at concrete inputs *)

Lemma scalar_matmul_int32_dot_witness :
  disjoint_buffers (base scalar_A) (base scalar_C) (2 * 2)
  ∧ disjoint_buffers (base scalar_B) (base scalar_C) (2 * 2)
  ∧ load32 (scalar_matmul_int32 (base scalar_A) (base scalar_B) (base scalar_C) 2
              sample_mem) (base scalar_C +ₚ (1 * 2 + 0)) = 3.
Proof.
  assert (HA : disjoint_buffers (base scalar_A) (base scalar_C) (2 * 2))
    by (apply globals_disjoint; discriminate).
  assert (HB : disjoint_buffers (base scalar_B) (base scalar_C) (2 * 2))
    by (apply globals_disjoint; discriminate).
  split; [exact HA|]. split; [exact HB|].
  destruct (scalar_matmul_int32_dot 2 (base scalar_A) (base scalar_B) (base scalar_C)
              sample_mem HA HB) as [Hcells _].
  apply (Hcells 1%nat 0%nat); [lia | lia | vm_compute; split; discriminate].
Defined.

Lemma saxpy_kernels_agree_on_forward_overlap_witness :
  rvv_conformant hw_idle_accel
  ∧ forward_safe (base vec_y) (base vec_y) 6
  ∧ ∃ m', ara_vector_saxpy hw_idle_accel 3 (base vec_y) (base vec_y) 6 sample_mem = Some m'
          ∧ (∀ q, m' q = scalar_saxpy 3 (base vec_y) (base vec_y) 6 sample_mem q)
          ∧ ∀ k, (k < 6)%nat →
              load32 m' (base vec_y +ₚ k)
              = to_int32 ((3 + 1) * load32 sample_mem (base vec_y +ₚ k)).
Proof.
  assert (Hf : forward_safe (base vec_y) (base vec_y) 6)
    by (intros j k Hjk Hk E; apply padd_inj in E; lia).
  split; [exact hw_idle_accel_conformant|]. split; [exact Hf|].
  destruct (saxpy_kernels_agree_on_forward_overlap hw_idle_accel 3
              (base vec_y) (base vec_y) 6 sample_mem hw_idle_accel_conformant Hf)
    as (m' & Hrun & Hall & Hin).
  exists m'. split; [exact Hrun|]. split; [exact Hall | exact (Hin eq_refl)].
Defined.

Lemma test_ara_performance_passes_witness :
  rvv_conformant hw_idle_accel
  ∧ exit_code (ScalarCompare.test_ara_performance hw_idle_accel boot) = Some 0.
Proof.
  split; [exact hw_idle_accel_conformant|].
  exact (proj1 (test_ara_performance_passes hw_idle_accel boot hw_idle_accel_conformant)).
Defined.

Lemma generated_matmul_int32_exact_witness :
  Z.of_nat 16 * 1024 ≤ 2147483647
  ∧ load32 (scalar_matmul_int32 (base scalar_A) (base scalar_B) (base scalar_C) 16
              (init_matrix_int32 (base scalar_B) (16 * 16) 0x1234
                 (init_matrix_int32 (base scalar_A) (16 * 16) 0xABCD sample_mem)))
           (base scalar_C +ₚ (3 * 16 + 5))
    = foldr Z.add 0
        (map (λ k, ((0xABCD + Z.of_nat (3 * 16 + k)) mod 64 - 32)
                   * ((0x1234 + Z.of_nat (k * 16 + 5)) mod 64 - 32)) (seq 0 16)).
Proof.
  assert (Hfit : Z.of_nat 16 * 1024 ≤ 2147483647) by (vm_compute; discriminate).
  split; [exact Hfit|].
  apply (generated_matmul_int32_exact 16 0xABCD 0x1234
           (base scalar_A) (base scalar_B) (base scalar_C) sample_mem 3 5);
    try discriminate; try lia; exact Hfit.
Defined.

Lemma generated_saxpy_exact_witness :
  50 * Z.abs 3 + 50 ≤ 2147483647
  ∧ load32 (scalar_saxpy 3 (base vec_x) (base vec_y) 256
              (init_vector_int32 (base vec_y) 256 0x1234
                 (init_vector_int32 (base vec_x) 256 0xABCD sample_mem)))
           (base vec_y +ₚ 7)
    = 3 * ((0xABCD + Z.of_nat 7) mod 100 - 50) + ((0x1234 + Z.of_nat 7) mod 100 - 50).
Proof.
  assert (Ha : 50 * Z.abs 3 + 50 ≤ 2147483647) by (vm_compute; discriminate).
  split; [exact Ha|].
  apply (generated_saxpy_exact 3 0xABCD 0x1234 (base vec_x) (base vec_y) 256
           sample_mem 7);
    try discriminate; try exact Ha; try lia;
    try (split; [lia | reflexivity]); vm_compute; discriminate.
Defined.

(* ================================================================== *)
(** * The exit status of ara_gemmini_scalar_compare.c, in full *)




Lemma ara_vector_saxpy_none hw a x y n (m : mem) :
  ara_vector_saxpy hw a x y n m = None → VLMAX hw = 0%nat.
Proof.
  intros Hnone. destruct (Nat.eq_dec (VLMAX hw) 0%nat) as [H0|Hpos]; [exact H0|].
  destruct (ara_vector_saxpy_terminates hw a x y n m) as [m' E]; [lia|]. congruence.
Qed.

(** *** The four phases, outcome by outcome *)

Lemma test_scalar_performance_run (hw : platform) (s : state) :
  ∃ s', ScalarCompare.test_scalar_performance hw s = Ok 0 s'
        ∧ st_csr_reads s' = (4 + st_csr_reads s)%nat.
Proof.
  destruct s as [m0 con acc reads ms].
  unfold ScalarCompare.test_scalar_performance. exec.
  eexists. split; reflexivity.
Qed.

Lemma test_ara_performance_outcome (hw : platform) (s : state) :
  match ScalarCompare.test_ara_performance hw s with
  | Ok r s' => r = ara_verdict (st_mem s')
               ∧ st_csr_reads s' = (2 + st_csr_reads s)%nat
  | Fault f _ => f = Hang ∧ VLMAX hw = 0%nat
  end.
Proof.
  destruct s as [m0 con acc reads ms]. unfold ScalarCompare.test_ara_performance. exec.
  match goal with
  | |- context [ara_vector_saxpy ?h ?a ?x ?y ?n ?m] =>
      destruct (ara_vector_saxpy h a x y n m) as [m'|] eqn:Erun
  end.
  - exec. exec_ara_verify. exec.
    destruct (ara_differing VEC_LEN m') as [|i l] eqn:Ed.
    + change (Z.of_nat (Nat.min 5 (length (@nil nat))) =? 0) with true.
      exec. unfold ara_verdict. rewrite Ed. split; reflexivity.
    + destruct (Z.eqb_spec (Z.of_nat (Nat.min 5 (length (i :: l)))) 0) as [E|_];
        [simpl in E; lia|].
      exec. unfold ara_verdict. rewrite Ed. split; reflexivity.
  - split; [reflexivity|]. exact (ara_vector_saxpy_none _ _ _ _ _ _ Erun).
Qed.

Lemma test_gemmini_performance_run (DIM : nat) (hw : platform) (s : state) :
  ∃ s', ScalarCompare.test_gemmini_performance DIM hw s = Ok 0 s'
        ∧ st_csr_reads s' = (4 + st_csr_reads s)%nat.
Proof.
  destruct s as [m0 con acc reads ms].
  unfold ScalarCompare.test_gemmini_performance. exec. exec_verify. exec.
  exec_branch; exec; eexists; split; reflexivity.
Qed.

Lemma test_comparison_outcome (DIM : nat) (hw : platform) (s : state) :
  match ScalarCompare.test_comparison DIM hw s with
  | Ok r _ => r = 0
  | Fault Hang _ => VLMAX hw = 0%nat
  | Fault DivideByZero _ =>
      cycles_between hw (2 + st_csr_reads s) (3 + st_csr_reads s) = 0
      ∨ cycles_between hw (6 + st_csr_reads s) (7 + st_csr_reads s) = 0
  end.
Proof.
  destruct s as [m0 con acc reads ms].
  unfold ScalarCompare.test_comparison, cycles_between. exec. cbn [Nat.add].
  match goal with
  | |- context [ara_vector_saxpy ?h ?a ?x ?y ?n ?m] =>
      destruct (ara_vector_saxpy h a x y n m) as [m'|] eqn:Erun
  end; [|exact (ara_vector_saxpy_none _ _ _ _ _ _ Erun)].
  exec.
  repeat match goal with
         | |- context [if Z.eqb ?c 0 then _ else _] =>
             destruct (Z.eqb_spec c 0) as [?E|?E]
         end; try (left; assumption); try (right; assumption); reflexivity.
Qed.

(** The whole run: [main] returns the vector verdict of its own
    [test_ara_performance] call, and otherwise stops in the vector loop or
    in a division of [test_comparison]. *)
Lemma scalar_compare_main_outcome (DIM : nat) (hw : platform) (s : state) :
  match ScalarCompare.main DIM hw s with
  | Ok code _ => code = ara_verdict (main_ara_memory hw s)
  | Fault Hang _ => VLMAX hw = 0%nat
  | Fault DivideByZero _ =>
      cycles_between hw (12 + st_csr_reads s) (13 + st_csr_reads s) = 0
      ∨ cycles_between hw (16 + st_csr_reads s) (17 + st_csr_reads s) = 0
  end.
Proof.
  destruct s as [m0 con acc reads ms].
  unfold ScalarCompare.main, main_ara_memory, main_ara_phase, scalar_compare_banner.
  exec.
  match goal with |- context [ScalarCompare.test_scalar_performance hw ?s0] =>
    destruct (test_scalar_performance_run hw s0) as (s1 & E1 & Hr1);
    cbn [st_csr_reads] in Hr1; rewrite E1
  end.
  exec.
  pose proof (test_ara_performance_outcome hw s1) as Hara.
  destruct (ScalarCompare.test_ara_performance hw s1) as [r [m2 con2 acc2 reads2 ms2]|f s2].
  2:{ exec. destruct Hara as [-> H0]. exact H0. }
  cbn [st_mem st_csr_reads] in Hara. destruct Hara as [-> Hr2]. exec.
  match goal with |- context [ScalarCompare.test_gemmini_performance DIM hw ?s0] =>
    destruct (test_gemmini_performance_run DIM hw s0) as (s3 & E3 & Hr3);
    cbn [st_csr_reads] in Hr3; rewrite E3
  end.
  exec.
  pose proof (test_comparison_outcome DIM hw s3) as Hcmp.
  rewrite Hr3, Hr2, Hr1 in Hcmp. cbn [Nat.add] in Hcmp.
  destruct (ScalarCompare.test_comparison DIM hw s3) as [r4 s4|[|] s4].
  - subst r4. exec. exec_branch; exec; rewrite !Z.lor_0_r; reflexivity.
  - exec. exact Hcmp.
  - exec. exact Hcmp.
Qed.



(** On a conformant vector unit ara_gemmini_scalar_compare.c exits with 0,
    whatever values the accelerator writes back, as soon as the two cycle
    deltas that [test_comparison] divides by are not zero: the vector loops
    end, the vector result passes its verification, and no other phase
    reports a failure (fences are taken to return). *)
Theorem scalar_compare_conformant_exit (DIM : nat) (hw : platform) (s : state) :
  rvv_conformant hw →
  cycles_between hw (12 + st_csr_reads s) (13 + st_csr_reads s) ≠ 0 →
  cycles_between hw (16 + st_csr_reads s) (17 + st_csr_reads s) ≠ 0 →
  exit_code (ScalarCompare.main DIM hw s) = Some 0.
Proof.
  intros Hc Ha Hg.
  pose proof (scalar_compare_main_outcome DIM hw s) as Hmain.
  pose proof (conf_vlmax hw Hc) as Hvl.
  assert (Hpass : ara_verdict (main_ara_memory hw s) = 0).
  { unfold main_ara_memory, main_ara_phase.
    destruct (test_ara_performance_conformant hw
                (final_state (ScalarCompare.test_scalar_performance hw
                                (final_state (scalar_compare_banner s)))) Hc)
      as (s2 & pre & E & _).
    pose proof (test_ara_performance_outcome hw
                  (final_state (ScalarCompare.test_scalar_performance hw
                                  (final_state (scalar_compare_banner s))))) as Hout.
    rewrite E in Hout |- *. cbn [final_state]. symmetry. apply Hout. }
  destruct (ScalarCompare.main DIM hw s) as [code s'|[|] s']; cbn [exit_code].
  - f_equal. rewrite Hmain. exact Hpass.
  - destruct Hmain; contradiction.
  - lia.
Qed.

Lemma scalar_compare_conformant_exit_witness :
  rvv_conformant hw_idle_accel
  ∧ cycles_between hw_idle_accel (12 + st_csr_reads boot) (13 + st_csr_reads boot) ≠ 0
  ∧ cycles_between hw_idle_accel (16 + st_csr_reads boot) (17 + st_csr_reads boot) ≠ 0
  ∧ exit_code (ScalarCompare.main 2 hw_idle_accel boot) = Some 0.
Proof.
  assert (Ha : cycles_between hw_idle_accel (12 + st_csr_reads boot)
                 (13 + st_csr_reads boot) ≠ 0) by (vm_compute; discriminate).
  assert (Hg : cycles_between hw_idle_accel (16 + st_csr_reads boot)
                 (17 + st_csr_reads boot) ≠ 0) by (vm_compute; discriminate).
  split; [exact hw_idle_accel_conformant|]. split; [exact Ha|]. split; [exact Hg|].
  exact (scalar_compare_conformant_exit 2 hw_idle_accel boot
           hw_idle_accel_conformant Ha Hg).
Defined.
